(** * A scene graph with hit testing and click dispatch (src/index.ts)

    (An earlier revision of the same file is kept next to it; it differs
    in [CustomText.draw] and in the demo wiring.  The embedding follows
    src/index.ts.)

    The TypeScript source builds a retained-mode scene graph: shapes with a
    local position, a size, an ordered array of children and a back-link to
    the parent.  Shapes are JavaScript objects, compared and shared by
    identity, so the embedding keeps them in a store keyed by object
    identity and every method reads and writes that store.

    Conventions of the embedding:
    - the numbers held by the shapes are integers ([Z], pixel
      coordinates).  The operations of the graph ([getAbsoluteX],
      [containsPoint], ...) are first given with exact integer
      arithmetic; the arithmetic of the two containment tests is then
      given a second time in IEEE double precision ([getAbsoluteX64],
      [containsPoint64]), with the rounding written out, and the
      theorems about what the tests accept are stated for that version;
    - a JS string whose content matters (the text of a text node) is the
      list of its UTF-16 code units; fonts and colors, which are only
      passed on, are Rocq strings;
    - a method that recurses through the parent links or the child arrays
      takes a recursion budget ([nat]) and answers [None] when the budget
      is exhausted (the source would overflow its call stack) or when a
      reference leaves the store;
    - [console.log] appends to [console]; the drawing context is an
      object with the three style fields the source assigns and the list
      of painting calls it received. *)

From Stdlib Require Import ZArith Lia String Ascii List Reals Lra.
From Stdlib Require Import Floats.SpecFloat.
From stdpp Require Import base option list gmap strings.

Local Open Scope string_scope.
Local Open Scope list_scope.
Local Open Scope Z_scope.

(** ** Events *)

(** [interface HandleEvent { type; x; y }] *)
Record HandleEvent := MkHandleEvent {
  type : string;
  event_x : Z;
  event_y : Z
}.

(** [class MouseClickEvent]: [type = 'click']. *)
Definition MouseClickEvent (x y : Z) : HandleEvent := MkHandleEvent "click" x y.

(** ** Shapes *)

(** The five concrete classes deriving from [BaseShape], with the fields
    each one adds.  [Scene] keeps the drawing context it bound at
    construction. *)
Inductive ShapeClass :=
  | Rectangle (strokeColor : string)
  | Circle (radius : Z) (fillColor : string)
  | CustomText (text : list N) (font fillColor : string)
  | Scene (ctx : nat)
  | PalaceContainer (strokeColor : string).

(** The fields of [BaseShape]; [children] and [parent] hold object
    identities. *)
Record Shape := MkShape {
  class : ShapeClass;
  x : Z;
  y : Z;
  width : Z;
  height : Z;
  children : list nat;
  parent : option nat
}.

Definition set_width (v : Z) (s : Shape) : Shape :=
  MkShape (class s) (x s) (y s) v (height s) (children s) (parent s).
Definition set_height (v : Z) (s : Shape) : Shape :=
  MkShape (class s) (x s) (y s) (width s) v (children s) (parent s).
Definition set_children (v : list nat) (s : Shape) : Shape :=
  MkShape (class s) (x s) (y s) (width s) (height s) v (parent s).
Definition set_parent (v : option nat) (s : Shape) : Shape :=
  MkShape (class s) (x s) (y s) (width s) (height s) (children s) v.

Definition is_Scene (s : Shape) : bool :=
  match class s with Scene _ => true | _ => false end.
Definition is_Circle (s : Shape) : bool :=
  match class s with Circle _ _ => true | _ => false end.

(** ** The drawing context and the console *)

Inductive CanvasCall :=
  | strokeRect (x y w h : Z)
  | beginPath
  | arc (x y r : Z)          (* the angles are always 0 and 2π *)
  | fill
  | fillText (s : list N) (x y : Z)
  | clearRect (x y w h : Z).

Record Context2D := MkContext2D {
  ctx_font : string;
  ctx_fillStyle : string;
  ctx_strokeStyle : string;
  calls : list CanvasCall
}.

(** A context nobody painted on yet (the values a fresh canvas has). *)
Definition fresh_ctx : Context2D :=
  MkContext2D "10px sans-serif" "#000000" "#000000" [].

(** What an [onClick] override prints; [receiver] is the object whose
    [onClick] ran (the source prints only the message). *)
Inductive Message :=
  | ClickedShape (x y : Z)
  | ClickedRectangle (ax ay : Z)
  | ClickedCircle (cx cy : Z)
  | ClickedText (text : list N) (ax ay : Z)
  | ClickedPalace (x y : Z).

Record LogEntry := MkLogEntry { receiver : nat; message : Message }.

(** ** The world: object store, contexts, console *)

Record World := MkWorld {
  objs : gmap nat Shape;
  ctxs : gmap nat Context2D;
  console : list LogEntry
}.

Definition with_objs (o : gmap nat Shape) (w : World) : World :=
  MkWorld o (ctxs w) (console w).
Definition with_ctxs (c : gmap nat Context2D) (w : World) : World :=
  MkWorld (objs w) c (console w).
Definition log (e : LogEntry) (w : World) : World :=
  MkWorld (objs w) (ctxs w) (console w ++ [e]).

Definition get_ctx (c : nat) (w : World) : Context2D :=
  default fresh_ctx (ctxs w !! c).
Definition upd_ctx (c : nat) (f : Context2D → Context2D) (w : World) : World :=
  with_ctxs (<[c := f (get_ctx c w)]> (ctxs w)) w.

(** [ctx.font = v], [ctx.fillStyle = v], [ctx.strokeStyle = v]: plain
    assignments (the strings are taken to be valid CSS values; a canvas
    ignores the assignment of one that is not). *)
Definition set_font (v : string) (k : Context2D) : Context2D :=
  MkContext2D v (ctx_fillStyle k) (ctx_strokeStyle k) (calls k).
Definition set_fillStyle (v : string) (k : Context2D) : Context2D :=
  MkContext2D (ctx_font k) v (ctx_strokeStyle k) (calls k).
Definition set_strokeStyle (v : string) (k : Context2D) : Context2D :=
  MkContext2D (ctx_font k) (ctx_fillStyle k) v (calls k).
Definition call (c : CanvasCall) (k : Context2D) : Context2D :=
  MkContext2D (ctx_font k) (ctx_fillStyle k) (ctx_strokeStyle k) (calls k ++ [c]).

(** Assignment to a field of the object [id]. *)
Definition assign (id : nat) (f : Shape → Shape) (w : World) : option World :=
  s ← objs w !! id; Some (with_objs (<[id := f s]> (objs w)) w).

(** ** Absolute coordinates *)

(** [BaseShape.getAbsoluteX], overridden by [Scene.getAbsoluteX]. *)
Fixpoint getAbsoluteX (fuel : nat) (o : gmap nat Shape) (this : nat) : option Z :=
  match fuel with
  | O => None
  | S fuel' =>
    s ← o !! this;
    match class s with
    | Scene _ => Some 0
    | _ =>
      match parent s with
      | Some p => v ← getAbsoluteX fuel' o p; Some (v + x s)
      | None => Some (x s)
      end
    end
  end.

(** [BaseShape.getAbsoluteY], overridden by [Scene.getAbsoluteY]. *)
Fixpoint getAbsoluteY (fuel : nat) (o : gmap nat Shape) (this : nat) : option Z :=
  match fuel with
  | O => None
  | S fuel' =>
    s ← o !! this;
    match class s with
    | Scene _ => Some 0
    | _ =>
      match parent s with
      | Some p => v ← getAbsoluteY fuel' o p; Some (v + y s)
      | None => Some (y s)
      end
    end
  end.

(** ** Containment *)

(** [sqrt(d2) <= r] over the reals, decided on integers (see
    [Math_sqrt_le_spec]): what [Math.sqrt(d2) <= r] is when nothing is
    rounded.  [Math_sqrt_leb] below is the comparison in doubles. *)
Definition Math_sqrt_le (d2 r : Z) : bool := (0 <=? r) && (d2 <=? r * r).

(** [BaseShape.containsPoint], overridden by [Circle.containsPoint],
    with exact arithmetic ([containsPoint64] is the test in doubles). *)
Definition containsPoint (fuel : nat) (o : gmap nat Shape) (this : nat)
    (px py : Z) : option bool :=
  s ← o !! this;
  match class s with
  | Circle radius _ =>
    ax ← getAbsoluteX fuel o this;
    let centerX := ax + radius in
    ay ← getAbsoluteY fuel o this;
    let centerY := ay + radius in
    Some (Math_sqrt_le ((px - centerX) ^ 2 + (py - centerY) ^ 2) radius)
  | _ =>
    ax ← getAbsoluteX fuel o this;
    let localX := px - ax in
    ay ← getAbsoluteY fuel o this;
    let localY := py - ay in
    Some ((localX >=? 0) && (localX <=? width s) &&
          (localY >=? 0) && (localY <=? height s))
  end.

(** ** The containment tests in double precision

    A JS number is an IEEE 754 binary64 value.  The coordinates handled
    here are integers, and a sum, difference or product of integers is
    an integer, so the finite values that occur are the integer-valued
    doubles: [Finite z] with the integer [z] (+0 and -0 are not told
    apart; nothing here divides).  An operation computes the exact
    integer and rounds it to 53 significant bits, to nearest, ties to
    even; a rounded result of magnitude 2^1024 or more is an infinity.
    [Math.pow(v, 2)] is taken to be the correctly rounded square and
    [Math.sqrt] the correctly rounded square root. *)
Inductive double := Finite (z : Z) | PlusInfinity | MinusInfinity | NaN.

(** Rounding of an exact integer result to 53 significant bits. *)
Definition round53 (z : Z) : Z :=
  let a := Z.abs z in
  let k := Z.log2 a - 52 in
  if k <=? 0 then z
  else
    let q := a / 2 ^ k in
    let rem := a mod 2 ^ k in
    let half := 2 ^ (k - 1) in
    let m := if rem <? half then q
             else if half <? rem then q + 1
             else if Z.even q then q else q + 1 in
    Z.sgn z * (m * 2 ^ k).

Definition overflow_threshold : Z := 2 ^ 1024.

(** The double an exact integer result becomes. *)
Definition of_exact (z : Z) : double :=
  let r := round53 z in
  if overflow_threshold <=? r then PlusInfinity
  else if r <=? - overflow_threshold then MinusInfinity
  else Finite r.

(** A number held in a field or written as a literal. *)
Definition num (z : Z) : double := of_exact z.

Definition dneg (a : double) : double :=
  match a with
  | Finite z => Finite (- z)
  | PlusInfinity => MinusInfinity
  | MinusInfinity => PlusInfinity
  | NaN => NaN
  end.

(** [a + b] *)
Definition dadd (a b : double) : double :=
  match a, b with
  | NaN, _ | _, NaN => NaN
  | PlusInfinity, MinusInfinity | MinusInfinity, PlusInfinity => NaN
  | PlusInfinity, _ | _, PlusInfinity => PlusInfinity
  | MinusInfinity, _ | _, MinusInfinity => MinusInfinity
  | Finite x, Finite y => of_exact (x + y)
  end.

(** [a - b] *)
Definition dsub (a b : double) : double := dadd a (dneg b).

(** The sign of a double as -1, 0 or 1 ([None] for NaN). *)
Definition dsign (a : double) : option Z :=
  match a with
  | Finite z => Some (Z.sgn z)
  | PlusInfinity => Some 1
  | MinusInfinity => Some (-1)
  | NaN => None
  end.

(** [a * b] *)
Definition dmul (a b : double) : double :=
  match a, b with
  | Finite x, Finite y => of_exact (x * y)
  | _, _ =>
    match dsign a, dsign b with
    | Some sa, Some sb =>
      if sa * sb =? 0 then NaN
      else if 0 <? sa * sb then PlusInfinity else MinusInfinity
    | _, _ => NaN
    end
  end.

(** [Math.pow(a, 2)] *)
Definition Math_pow2 (a : double) : double := dmul a a.

(** [a <= b] and [a >= b]; a comparison with NaN is false. *)
Definition dleb (a b : double) : bool :=
  match a, b with
  | NaN, _ | _, NaN => false
  | MinusInfinity, _ => true
  | _, PlusInfinity => true
  | PlusInfinity, _ => false
  | _, MinusInfinity => false
  | Finite x, Finite y => x <=? y
  end.
Definition dgeb (a b : double) : bool := dleb b a.

(** The correctly rounded square root of the integer [N > 0], as the
    pair [(m, e)] that stands for [m * 2^e]: [e] is the exponent of the
    last of 53 bits, [m] the nearest integer to [sqrt N / 2^e] (a tie
    cannot occur: the square of a 54-bit odd number is no double). *)
Definition sqrt_round (N : Z) : Z * Z :=
  let e := Z.log2 N / 2 - 52 in
  if e <=? 0 then
    let t := 2 ^ (- e) in
    let M := N * (t * t) in
    let m0 := Z.sqrt M in
    (if m0 <? M - m0 * m0 then m0 + 1 else m0, e)
  else
    let u := 2 ^ e in
    let m0 := Z.sqrt (N / (u * u)) in
    (if u * u * ((2 * m0 + 1) * (2 * m0 + 1)) <? 4 * N then m0 + 1 else m0, e).

(** [Math.sqrt(d) <= r] *)
Definition Math_sqrt_leb (d r : double) : bool :=
  match d with
  | NaN | MinusInfinity => false
  | PlusInfinity => match r with PlusInfinity => true | _ => false end
  | Finite N =>
    if N <? 0 then false
    else if N =? 0 then dleb (Finite 0) r
    else
      match r with
      | NaN | MinusInfinity => false
      | PlusInfinity => true
      | Finite R =>
        let '(m, e) := sqrt_round N in
        if 0 <=? e then m * 2 ^ e <=? R else m <=? R * 2 ^ (- e)
      end
  end.

(** [getAbsoluteX] and [getAbsoluteY] in doubles. *)
Fixpoint getAbsoluteX64 (fuel : nat) (o : gmap nat Shape) (this : nat)
    : option double :=
  match fuel with
  | O => None
  | S fuel' =>
    s ← o !! this;
    match class s with
    | Scene _ => Some (num 0)
    | _ =>
      match parent s with
      | Some p => v ← getAbsoluteX64 fuel' o p; Some (dadd v (num (x s)))
      | None => Some (num (x s))
      end
    end
  end.

Fixpoint getAbsoluteY64 (fuel : nat) (o : gmap nat Shape) (this : nat)
    : option double :=
  match fuel with
  | O => None
  | S fuel' =>
    s ← o !! this;
    match class s with
    | Scene _ => Some (num 0)
    | _ =>
      match parent s with
      | Some p => v ← getAbsoluteY64 fuel' o p; Some (dadd v (num (y s)))
      | None => Some (num (y s))
      end
    end
  end.

(** [BaseShape.containsPoint] and [Circle.containsPoint] in doubles. *)
Definition containsPoint64 (fuel : nat) (o : gmap nat Shape) (this : nat)
    (px py : double) : option bool :=
  s ← o !! this;
  match class s with
  | Circle radius _ =>
    ax ← getAbsoluteX64 fuel o this;
    let centerX := dadd ax (num radius) in
    ay ← getAbsoluteY64 fuel o this;
    let centerY := dadd ay (num radius) in
    let distance :=
      dadd (Math_pow2 (dsub px centerX)) (Math_pow2 (dsub py centerY)) in
    Some (Math_sqrt_leb distance (num radius))
  | _ =>
    ax ← getAbsoluteX64 fuel o this;
    let localX := dsub px ax in
    ay ← getAbsoluteY64 fuel o this;
    let localY := dsub py ay in
    Some (dgeb localX (num 0) && dleb localX (num (width s)) &&
          dgeb localY (num 0) && dleb localY (num (height s)))
  end.

(** The Standard Library's specification of IEEE 754 arithmetic, to
    compare the rounding above with: an integer as a binary64 value, and
    a binary64 value with an integer value read back. *)
Definition ieee_of_Z (z : Z) : spec_float := binary_normalize 53 1024 z 0 false.
Definition double_of_ieee (f : spec_float) : double :=
  match f with
  | S754_zero _ => Finite 0
  | S754_finite sign m e =>
    Finite ((if sign then -1 else 1) *
            (if 0 <=? e then Z.pos m * 2 ^ e else Z.pos m / 2 ^ (- e)))
  | S754_infinity sign => if sign then MinusInfinity else PlusInfinity
  | S754_nan => NaN
  end.
(** [sqrt_round] against [SFsqrt] at the double nearest to [d2]: same
    mantissa and exponent. *)
Definition sqrt_round_ieee (d2 : Z) : bool :=
  match SFsqrt 53 1024 (ieee_of_Z d2), sqrt_round (round53 d2) with
  | S754_finite false m e, (m', e') => (Z.pos m =? m') && (e =? e')
  | _, _ => false
  end.

(** ** Building and editing the tree *)

(** A new object gets an identity no live object has. *)
Definition alloc (s : Shape) (w : World) : nat * World :=
  let id := fresh (dom (objs w)) in (id, with_objs (<[id := s]> (objs w)) w).

(** The constructors: [children = []], [parent = null], then the
    arguments of [super(...)]. *)
Definition new_Rectangle (x y width height : Z) (strokeColor : string) :=
  alloc (MkShape (Rectangle strokeColor) x y width height [] None).
Definition new_Circle (x y radius : Z) (fillColor : string) :=
  alloc (MkShape (Circle radius fillColor) x y (radius * 2) (radius * 2) [] None).
Definition new_CustomText (x y : Z) (text : list N) (font fillColor : string) :=
  alloc (MkShape (CustomText text font fillColor) x y 0 0 [] None).
Definition new_PalaceContainer (x y width height : Z) (strokeColor : string) :=
  alloc (MkShape (PalaceContainer strokeColor) x y width height [] None).
(** [new Scene(canvasId)]: the lookup of the canvas and of its context
    belongs to the DOM; the context found and the size of the canvas are
    arguments here.  [super(0, 0, 0, 0)], then the size is overwritten. *)
Definition new_Scene (ctx : nat) (canvas_width canvas_height : Z) :=
  alloc (MkShape (Scene ctx) 0 0 canvas_width canvas_height [] None).

(** [BaseShape.addChild]: push, then set the back-link. *)
Definition addChild (this child : nat) (w : World) : option World :=
  w1 ← assign this (λ s, set_children (children s ++ [child]) s) w;
  assign child (set_parent (Some this)) w1.

(** [Array.prototype.indexOf] on identities: first index, or -1. *)
Fixpoint indexOf (l : list nat) (v : nat) : Z :=
  match l with
  | [] => -1
  | a :: l' =>
    if decide (a = v) then 0
    else let i := indexOf l' v in if i =? -1 then -1 else i + 1
  end.

(** [l.splice(index, 1)] for an index inside the array. *)
Definition splice1 (l : list nat) (index : Z) : list nat :=
  take (Z.to_nat index) l ++ drop (S (Z.to_nat index)) l.

(** [BaseShape.removeChild]. *)
Definition removeChild (this child : nat) (w : World) : option World :=
  s ← objs w !! this;
  let index := indexOf (children s) child in
  if negb (index =? -1) then
    w1 ← assign this (λ s, set_children (splice1 (children s) index) s) w;
    assign child (set_parent None) w1
  else Some w.

(** ** Click dispatch *)

(** [onClick]: the default of [BaseShape] (kept by [Scene]) and the four
    overrides. *)
Definition onClick (fuel : nat) (this : nat) (event : HandleEvent) (w : World)
    : option World :=
  s ← objs w !! this;
  match class s with
  | Rectangle _ =>
    ax ← getAbsoluteX fuel (objs w) this;
    ay ← getAbsoluteY fuel (objs w) this;
    Some (log (MkLogEntry this (ClickedRectangle ax ay)) w)
  | Circle radius _ =>
    ax ← getAbsoluteX fuel (objs w) this;
    ay ← getAbsoluteY fuel (objs w) this;
    Some (log (MkLogEntry this (ClickedCircle (ax + radius) (ay + radius))) w)
  | CustomText text _ _ =>
    ax ← getAbsoluteX fuel (objs w) this;
    ay ← getAbsoluteY fuel (objs w) this;
    Some (log (MkLogEntry this (ClickedText text ax ay)) w)
  | Scene _ => Some (log (MkLogEntry this (ClickedShape (x s) (y s))) w)
  | PalaceContainer _ => Some (log (MkLogEntry this (ClickedPalace (x s) (y s))) w)
  end.

(** The [for] loop of [handleEvent], from index [k - 1] down to 0: [k] is
    the source's [i + 1], and [k = 0] is the code after the loop.  [test]
    is [child.containsPoint(event.x, event.y)], [deliver] the recursive
    [child.handleEvent(event)], [own] what follows the loop. *)
Fixpoint scan (test : nat → option bool) (deliver : nat → option World)
    (own : option World) (kids : list nat) (k : nat) : option World :=
  match k with
  | S i =>
    child ← kids !! i;
    b ← test child;
    if b : bool then deliver child else scan test deliver own kids i
  | O => own
  end.

(** [BaseShape.handleEvent] (no class overrides it). *)
Fixpoint handleEvent (fuel : nat) (this : nat) (event : HandleEvent) (w : World)
    : option World :=
  match fuel with
  | O => None
  | S fuel' =>
    s ← objs w !! this;
    scan (λ child, containsPoint fuel' (objs w) child (event_x event) (event_y event))
         (λ child, handleEvent fuel' child event w)
         (if decide (type event = "click") then onClick fuel' this event w
          else Some w)
         (children s) (length (children s))
  end.

(** ** Painting *)

(** [a.forEach(f)] for an [f] that can run out of budget. *)
Fixpoint forEach (f : nat → World → option World) (l : list nat) (w : World)
    : option World :=
  match l with
  | [] => Some w
  | a :: l' => w' ← f a w; forEach f l' w'
  end.

(** The code units of a text written in ASCII (for the examples and for
    the literal ["undefined"] below). *)
Fixpoint units (s : string) : list N :=
  match s with
  | EmptyString => []
  | String c s' => N_of_ascii c :: units s'
  end.

(** [text.split('')]: one string per UTF-16 code unit. *)
Fixpoint split (s : list N) : list (list N) :=
  match s with
  | [] => []
  | c :: s' => [c] :: split s'
  end.

(** [a[0]] handed to [measureText]: an empty array gives [undefined],
    which the canvas converts to the text ["undefined"]. *)
Definition item0 (a : list (list N)) : list N :=
  match a with
  | c :: _ => c
  | [] => units "undefined"
  end.

(** The [forEach] of [CustomText.draw]: the running offset [absY] and the
    context after the characters seen so far. *)
Definition paintChars (ctx : nat) (absX : Z) (items : list (list N))
    (absY : Z) (w : World) : Z * World :=
  fold_left
    (λ (st : Z * World) (item : list N),
       let absY := st.1 + 20 in
       (absY, upd_ctx ctx (call (fillText item absX absY)) st.2))
    items (absY, w).

(** Everything [getAbsoluteX], [getAbsoluteY] and the traversals read of
    a record: all fields but the size. *)
Definition skeleton (s : Shape) : ShapeClass * Z * Z * list nat * option nat :=
  (class s, x s, y s, children s, parent s).

Definition same_skeleton (o o' : gmap nat Shape) : Prop :=
  ∀ j, skeleton <$> o !! j = skeleton <$> o' !! j.

Section Painting.

(** [ctx.measureText(s).width] under the font the context has. *)
Variable measureText : string → list N → Z.

(** [draw] of the five classes.  [Scene.draw()] takes no argument and
    paints on its own context. *)
Fixpoint draw (fuel : nat) (this : nat) (ctx : nat) (w : World) : option World :=
  match fuel with
  | O => None
  | S fuel' =>
    s ← objs w !! this;
    match class s with
    | Rectangle strokeColor | PalaceContainer strokeColor =>
      absX ← getAbsoluteX fuel' (objs w) this;
      absY ← getAbsoluteY fuel' (objs w) this;
      let w := upd_ctx ctx (set_strokeStyle strokeColor) w in
      let w := upd_ctx ctx (call (strokeRect absX absY (width s) (height s))) w in
      forEach (λ child, draw fuel' child ctx) (children s) w
    | Circle radius fillColor =>
      ax ← getAbsoluteX fuel' (objs w) this;
      let absX := ax + radius in
      ay ← getAbsoluteY fuel' (objs w) this;
      let absY := ay + radius in
      let w := upd_ctx ctx (set_fillStyle fillColor) w in
      let w := upd_ctx ctx (call beginPath) w in
      let w := upd_ctx ctx (call (arc absX absY radius)) w in
      let w := upd_ctx ctx (call fill) w in
      forEach (λ child, draw fuel' child ctx) (children s) w
    | CustomText text font fillColor =>
      absX ← getAbsoluteX fuel' (objs w) this;
      absY ← getAbsoluteY fuel' (objs w) this;
      let w := upd_ctx ctx (set_font font) w in
      let w := upd_ctx ctx (set_fillStyle fillColor) w in
      let '(absY, w) := paintChars ctx absX (split text) absY w in
      w ← assign this
            (set_width (measureText (ctx_font (get_ctx ctx w)) (item0 (split text)))) w;
      w ← assign this (set_height (absY + 20)) w;
      forEach (λ child, draw fuel' child ctx) (children s) w
    | Scene ctx =>
      let w := upd_ctx ctx (call (clearRect 0 0 (width s) (height s))) w in
      forEach (λ child, draw fuel' child ctx) (children s) w
    end
  end.

(** What one [draw] makes of the record of [this] (the children apart):
    a text node gets its measured size, the other classes keep their
    record.  [None] when the absolute position is not obtained. *)
Definition measured (fuel : nat) (o : gmap nat Shape) (this : nat) (s : Shape)
    : option Shape :=
  match class s with
  | Scene _ => Some s
  | CustomText text font _ =>
    _ ← getAbsoluteX fuel o this;
    absY ← getAbsoluteY fuel o this;
    Some (set_height (absY + 20 * Z.of_nat (length (split text)) + 20)
            (set_width (measureText font (item0 (split text))) s))
  | _ =>
    _ ← getAbsoluteX fuel o this;
    _ ← getAbsoluteY fuel o this;
    Some s
  end.

(** Drawing [this] once more would not change its record. *)
Definition stable (o : gmap nat Shape) (this : nat) : Prop :=
  ∀ s fuel s', o !! this = Some s → measured fuel o this s = Some s' → s' = s.

(** An action (a [draw], or a loop of them) that changes nothing but
    sizes, leaves stable records alone, and, run again on a world
    that is at least as stable as its result, changes no record. *)
Definition repaints (m : nat → World → option World) : Prop :=
  ∀ ctx w w', m ctx w = Some w' →
    same_skeleton (objs w) (objs w') ∧
    (∀ j, stable (objs w) j → objs w' !! j = objs w !! j) ∧
    (∀ wa ctxa,
       same_skeleton (objs w') (objs wa) →
       (∀ j, stable (objs w') j → stable (objs wa) j) →
       ∃ wb, m ctxa wa = Some wb ∧ objs wb = objs wa).

End Painting.


(** The context the children of a node are drawn on. *)
Definition child_ctx (s : Shape) (ctx : nat) : nat :=
  match class s with Scene c => c | _ => ctx end.

(** The [fillText] calls of a text: one line per character, 20 apart,
    the first one 20 below [absY]. *)
Fixpoint text_lines (absX absY : Z) (items : list (list N)) : list CanvasCall :=
  match items with
  | [] => []
  | item :: items' => fillText item absX (absY + 20) :: text_lines absX (absY + 20) items'
  end.

(** A text measure for the examples: ten pixels per character. *)
Definition ten_per_char (font : string) (s : list N) : Z := 10 * Z.of_nat (length s).

(** ** Termination predicates

    What "finite and acyclic" means for the two recursions. *)

(** The parent chain of [this] ends after finitely many links. *)
Inductive FiniteChain (o : gmap nat Shape) : nat → Prop :=
  | chain_root this s :
      o !! this = Some s → parent s = None → FiniteChain o this
  | chain_link this s p :
      o !! this = Some s → parent s = Some p → FiniteChain o p →
      FiniteChain o this.

(** The tree of children below [this] is finite and has no cycle. *)
Inductive FiniteTree (o : gmap nat Shape) : nat → Prop :=
  | tree_node this s :
      o !! this = Some s →
      (∀ child, child ∈ children s → FiniteTree o child) →
      FiniteTree o this.

(** [d] is [this] or one of its descendants. *)
Inductive InSubtree (o : gmap nat Shape) (this : nat) : nat → Prop :=
  | subtree_self : InSubtree o this this
  | subtree_child d s child :
      InSubtree o this d → o !! d = Some s → child ∈ children s →
      InSubtree o this child.

(** The call returns [v] (with some recursion budget). *)
Definition AbsoluteX (o : gmap nat Shape) (this : nat) (v : Z) : Prop :=
  ∃ fuel, getAbsoluteX fuel o this = Some v.
Definition AbsoluteY (o : gmap nat Shape) (this : nat) (v : Z) : Prop :=
  ∃ fuel, getAbsoluteY fuel o this = Some v.

(** Euclidean distance between two integer points, over the reals. *)
Definition distance (x1 y1 x2 y2 : Z) : R :=
  sqrt ((IZR x1 - IZR x2) * (IZR x1 - IZR x2) + (IZR y1 - IZR y2) * (IZR y1 - IZR y2)).

(** ** Example scenes, built with the constructors and [addChild] *)

Definition empty_world : World := MkWorld ∅ ∅ [].

(** A rectangle at x = 5 that received a scene as a child. *)
Definition scene_under_rectangle : option (nat * nat * World) :=
  let '(r, w) := new_Rectangle 5 7 100 50 "black" empty_world in
  let '(sc, w) := new_Scene 0 800 600 w in
  w ← addChild r sc w; Some (r, sc, w).

(** A rectangle at x = -1 that is 2^53 wide, alone. *)
Definition wide_rectangle : nat * World :=
  new_Rectangle (-1) 0 (2 ^ 53) 10 "black" empty_world.

(** A circle of radius 2^26 at (0, 0), alone: its center is (2^26, 2^26). *)
Definition big_circle : nat * World :=
  new_Circle 0 0 (2 ^ 26) "red" empty_world.

(** A scene with three rectangles added in the order A, B, C; B and C
    both cover the point (50, 25), A does not. *)
Definition three_siblings : option (nat * nat * nat * nat * World) :=
  let '(root, w) := new_Scene 0 800 600 empty_world in
  let '(a, w) := new_Rectangle 0 0 10 10 "black" w in
  let '(b, w) := new_Rectangle 0 0 100 50 "black" w in
  let '(c, w) := new_Rectangle 20 10 100 50 "black" w in
  w ← addChild root a w; w ← addChild root b w; w ← addChild root c w;
  Some (root, a, b, c, w).

(** A scene whose only child is a rectangle covering (0,0)-(100,50). *)
Definition one_rectangle : option (nat * nat * World) :=
  let '(root, w) := new_Scene 0 800 600 empty_world in
  let '(r, w) := new_Rectangle 0 0 100 50 "black" w in
  w ← addChild root r w; Some (root, r, w).

(** Two rectangles that were added to each other, and a leaf under one
    of them: [p.addChild(q); q.addChild(p); p.addChild(a)]. *)
Definition cyclic_ancestors : option (nat * nat * nat * World) :=
  let '(p, w) := new_Rectangle 0 0 10 10 "black" empty_world in
  let '(q, w) := new_Rectangle 0 0 10 10 "black" w in
  let '(a, w) := new_Rectangle 0 0 10 10 "black" w in
  w ← addChild p q w; w ← addChild q p w; w ← addChild p a w;
  Some (p, q, a, w).

(** A scene that is added to one rectangle and then to another one,
    which sits at x = 5: [c1.addChild(sc); c2.addChild(sc)]. *)
Definition scene_moved : option (nat * nat * nat * World) :=
  let '(c1, w) := new_Rectangle 0 0 10 10 "black" empty_world in
  let '(c2, w) := new_Rectangle 5 7 10 10 "black" w in
  let '(sc, w) := new_Scene 0 800 600 w in
  w ← addChild c1 sc w; w ← addChild c2 sc w; Some (c1, c2, sc, w).

(** A text node that is added to one palace and then to another one. *)
Definition text_moved : option (nat * nat * nat * World) :=
  let '(c1, w) := new_PalaceContainer 0 0 160 200 "black" empty_world in
  let '(c2, w) := new_PalaceContainer 160 0 160 200 "black" w in
  let '(t, w) := new_CustomText 20 0 (units "ab") "20px Arial" "black" w in
  w ← addChild c1 t w; w ← addChild c2 t w; Some (c1, c2, t, w).

(** The same child added twice: [p.addChild(c); p.addChild(c)]. *)
Definition added_twice : option (nat * nat * World) :=
  let '(p, w) := new_Rectangle 0 0 10 10 "black" empty_world in
  let '(c, w) := new_Rectangle 1 1 5 5 "black" w in
  w ← addChild p c w; w ← addChild p c w; Some (p, c, w).

(** A text node alone in the world, at the origin. *)
Definition lone_text : nat * World :=
  new_CustomText 0 0 (units "a") "20px Arial" "black" empty_world.

(** A palace holding a text node and a rectangle footer, under a scene. *)
Definition palace_scene : option (nat * nat * nat * nat * World) :=
  let '(root, w) := new_Scene 0 800 600 empty_world in
  let '(palace, w) := new_PalaceContainer 60 60 160 200 "black" w in
  let '(t, w) := new_CustomText 20 0 (units "ab") "20px Arial" "black" w in
  let '(foot, w) := new_Rectangle 0 140 40 60 "black" w in
  w ← addChild palace t w; w ← addChild palace foot w; w ← addChild root palace w;
  Some (root, palace, t, foot, w).

(** A circle of radius 40 at local offset (0,0) under a scene: its
    center is (40, 40). *)
Definition circle_scene : option (nat * nat * World) :=
  let '(root, w) := new_Scene 0 800 600 empty_world in
  let '(c, w) := new_Circle 0 0 40 "red" w in
  w ← addChild root c w; Some (root, c, w).

(** A text node that stands in the array of a first palace only. *)
Definition text_in_first : option (nat * nat * nat * World) :=
  let '(c1, w) := new_PalaceContainer 0 0 160 200 "black" empty_world in
  let '(c2, w) := new_PalaceContainer 160 0 160 200 "black" w in
  let '(t, w) := new_CustomText 20 0 (units "ab") "20px Arial" "black" w in
  w ← addChild c1 t w; Some (c1, c2, t, w).

(** The world of an example; the objects are numbered 0, 1, 2, ... in
    the order of their construction. *)
Definition world_of {A : Type} (r : option (A * World)) : World :=
  match r with Some (_, w) => w | None => empty_world end.

(** [palace_scene] after one [scene.draw()]. *)
Definition palace_drawn : World :=
  default empty_world (draw ten_per_char 8 0 0 (world_of palace_scene)).

(** ** Further predicates used to state properties of the scene graph *)

(** The parent chain of [this] reaches a node without parent or a
    [Scene] (whose own parent is never asked). *)
Inductive Resolves (o : gmap nat Shape) : nat → Prop :=
  | resolves_scene this s :
      o !! this = Some s → is_Scene s = true → Resolves o this
  | resolves_root this s :
      o !! this = Some s → is_Scene s = false → parent s = None → Resolves o this
  | resolves_link this s p :
      o !! this = Some s → is_Scene s = false → parent s = Some p →
      Resolves o p → Resolves o this.

(** [a] is the parent of [n], or the parent of its parent, and so on. *)
Inductive Ancestor (o : gmap nat Shape) : nat → nat → Prop :=
  | ancestor_parent n s p :
      o !! n = Some s → parent s = Some p → Ancestor o n p
  | ancestor_further n s p a :
      o !! n = Some s → parent s = Some p → Ancestor o p a → Ancestor o n a.

(** Every back-link is matched by an entry in the parent's array. *)
Definition backlinked (o : gmap nat Shape) : Prop :=
  ∀ n s p, o !! n = Some s → parent s = Some p →
    ∃ sp, o !! p = Some sp ∧ n ∈ children sp.

(** The painting calls a node issues for itself, before its children
    are drawn. *)
Definition self_calls (s : Shape) (absX absY : Z) : list CanvasCall :=
  match class s with
  | Rectangle _ | PalaceContainer _ => [strokeRect absX absY (width s) (height s)]
  | Circle radius _ => [beginPath; arc (absX + radius) (absY + radius) radius; fill]
  | CustomText text _ _ => text_lines absX absY (split text)
  | Scene _ => [clearRect 0 0 (width s) (height s)]
  end.

(** What [draw] needs of the graph below [this]: every node it visits
    exists, has a position unless it is a [Scene], and the visit ends. *)
Inductive Drawable (o : gmap nat Shape) : nat → Prop :=
  | drawable_node this s :
      o !! this = Some s →
      (is_Scene s = false → Resolves o this) →
      (∀ child, child ∈ children s → Drawable o child) →
      Drawable o this.

(** A text node under two palaces, then taken out of the first one:
    [c1.addChild(t); c2.addChild(t); c1.removeChild(t)]. *)
Definition text_in_both : option (nat * nat * nat * World) :=
  let '(c1, w) := new_PalaceContainer 0 0 160 200 "black" empty_world in
  let '(c2, w) := new_PalaceContainer 160 0 160 200 "black" w in
  let '(t, w) := new_CustomText 20 0 (units "ab") "20px Arial" "black" w in
  w ← addChild c1 t w; w ← addChild c2 t w; Some (c1, c2, t, w).

(** A scene and a rectangle that is not attached to anything yet. *)
Definition loose_rectangle : option (nat * nat * World) :=
  let '(root, w) := new_Scene 0 800 600 empty_world in
  let '(r, w) := new_Rectangle 0 0 100 50 "black" w in
  Some (root, r, w).

(** * Properties *)

(** ** Recursion budgets only matter when they run out *)

Lemma getAbsoluteX_mono fuel fuel' o this v :
  getAbsoluteX fuel o this = Some v → (fuel ≤ fuel')%nat →
  getAbsoluteX fuel' o this = Some v.
Proof.
  revert fuel' this v. induction fuel as [|n IH]; intros [|m] this v H Hle;
    simpl in *; try done; try lia.
  destruct (o !! this) as [s|]; simpl in *; [|done].
  destruct (class s); try done;
    (destruct (parent s) as [p|]; [|done]);
    (destruct (getAbsoluteX n o p) as [vp|] eqn:E; [|done]);
    rewrite (IH m p vp E) by lia; done.
Qed.

Lemma getAbsoluteY_mono fuel fuel' o this v :
  getAbsoluteY fuel o this = Some v → (fuel ≤ fuel')%nat →
  getAbsoluteY fuel' o this = Some v.
Proof.
  revert fuel' this v. induction fuel as [|n IH]; intros [|m] this v H Hle;
    simpl in *; try done; try lia.
  destruct (o !! this) as [s|]; simpl in *; [|done].
  destruct (class s); try done;
    (destruct (parent s) as [p|]; [|done]);
    (destruct (getAbsoluteY n o p) as [vp|] eqn:E; [|done]);
    rewrite (IH m p vp E) by lia; done.
Qed.

Lemma getAbsoluteX_det o this f1 f2 v1 v2 :
  getAbsoluteX f1 o this = Some v1 → getAbsoluteX f2 o this = Some v2 → v1 = v2.
Proof.
  intros H1 H2.
  apply (getAbsoluteX_mono _ (f1 + f2)) in H1; [|lia].
  apply (getAbsoluteX_mono _ (f1 + f2)) in H2; [|lia]. congruence.
Qed.

Lemma getAbsoluteY_det o this f1 f2 v1 v2 :
  getAbsoluteY f1 o this = Some v1 → getAbsoluteY f2 o this = Some v2 → v1 = v2.
Proof.
  intros H1 H2.
  apply (getAbsoluteY_mono _ (f1 + f2)) in H1; [|lia].
  apply (getAbsoluteY_mono _ (f1 + f2)) in H2; [|lia]. congruence.
Qed.

(** One unfolding of the two methods, by class and parent. *)
Lemma getAbsoluteX_unfold fuel o this s :
  o !! this = Some s →
  getAbsoluteX (S fuel) o this =
    if is_Scene s then Some 0
    else match parent s with
         | Some p => (λ v, v + x s) <$> getAbsoluteX fuel o p
         | None => Some (x s)
         end.
Proof.
  intros Hs. simpl. rewrite Hs. simpl. unfold is_Scene.
  destruct (class s); try done; destruct (parent s); try done;
    destruct (getAbsoluteX fuel o n); done.
Qed.

Lemma getAbsoluteY_unfold fuel o this s :
  o !! this = Some s →
  getAbsoluteY (S fuel) o this =
    if is_Scene s then Some 0
    else match parent s with
         | Some p => (λ v, v + y s) <$> getAbsoluteY fuel o p
         | None => Some (y s)
         end.
Proof.
  intros Hs. simpl. rewrite Hs. simpl. unfold is_Scene.
  destruct (class s); try done; destruct (parent s); try done;
    destruct (getAbsoluteY fuel o n); done.
Qed.

Lemma AbsoluteX_inv o this s v :
  o !! this = Some s → AbsoluteX o this v →
  if is_Scene s then v = 0
  else match parent s with
       | Some p => ∃ vp, AbsoluteX o p vp ∧ v = vp + x s
       | None => v = x s
       end.
Proof.
  intros Hs [[|f] H]; [done|].
  rewrite (getAbsoluteX_unfold _ _ _ _ Hs) in H.
  destruct (is_Scene s); [congruence|].
  destruct (parent s) as [p|]; [|congruence].
  destruct (getAbsoluteX f o p) as [vp|] eqn:E; simpl in H; [|done].
  exists vp. split; [by exists f | congruence].
Qed.

Lemma AbsoluteY_inv o this s v :
  o !! this = Some s → AbsoluteY o this v →
  if is_Scene s then v = 0
  else match parent s with
       | Some p => ∃ vp, AbsoluteY o p vp ∧ v = vp + y s
       | None => v = y s
       end.
Proof.
  intros Hs [[|f] H]; [done|].
  rewrite (getAbsoluteY_unfold _ _ _ _ Hs) in H.
  destruct (is_Scene s); [congruence|].
  destruct (parent s) as [p|]; [|congruence].
  destruct (getAbsoluteY f o p) as [vp|] eqn:E; simpl in H; [|done].
  exists vp. split; [by exists f | congruence].
Qed.

(** ** C1: absolute position *)

(** C1, counterexample.  The claim asks, of every node N with a parent P,
    that N's absolute x is P's absolute x plus N's local x.  A [Scene]
    that was added to a rectangle at x = 5 has that rectangle as its
    parent, yet reports 0 and not 5 + 0. *)
Lemma C1_scene_child_counterexample :
  ∃ r sc w s,
    scene_under_rectangle = Some (r, sc, w) ∧
    objs w !! sc = Some s ∧ parent s = Some r ∧
    ¬ (∀ v vp, AbsoluteX (objs w) sc v → AbsoluteX (objs w) r vp → v = vp + x s).
Proof.
  eexists _, _, _, _. split; [vm_compute; reflexivity|].
  split; [vm_compute; reflexivity|]. split; [reflexivity|].
  intros H. specialize (H 0 5).
  assert (0 = 5 + 0) as E; [|lia]. apply H.
  - exists 1%nat. vm_compute. reflexivity.
  - exists 1%nat. vm_compute. reflexivity.
Qed.

(** C1, amended.  For every node N that is not a Scene and has a parent P,
    [getAbsoluteX] of N returns exactly P's result plus [N.x] (and
    likewise for y); a node that is not a Scene and has no parent returns
    its local [x], [y]; a Scene returns 0 for both, whatever its local
    fields and whether or not it has a parent. *)
Theorem C1_absolute_position (o : gmap nat Shape) (N : nat) (s : Shape) :
  o !! N = Some s →
  (is_Scene s = false → ∀ P, parent s = Some P →
     ∀ v, (AbsoluteX o N v ↔ ∃ vp, AbsoluteX o P vp ∧ v = vp + x s) ∧
          (AbsoluteY o N v ↔ ∃ vp, AbsoluteY o P vp ∧ v = vp + y s)) ∧
  (is_Scene s = false → parent s = None →
     ∀ v, (AbsoluteX o N v ↔ v = x s) ∧ (AbsoluteY o N v ↔ v = y s)) ∧
  (is_Scene s = true →
     ∀ v, (AbsoluteX o N v ↔ v = 0) ∧ (AbsoluteY o N v ↔ v = 0)).
Proof.
  intros Hs. repeat split.
  - intros HA. pose proof (AbsoluteX_inv _ _ _ _ Hs HA) as HI.
    rewrite H, H0 in HI. exact HI.
  - intros (vp & [f Hf] & ->). exists (S f).
    rewrite (getAbsoluteX_unfold _ _ _ _ Hs), H, H0, Hf. done.
  - intros HA. pose proof (AbsoluteY_inv _ _ _ _ Hs HA) as HI.
    rewrite H, H0 in HI. exact HI.
  - intros (vp & [f Hf] & ->). exists (S f).
    rewrite (getAbsoluteY_unfold _ _ _ _ Hs), H, H0, Hf. done.
  - intros HA. pose proof (AbsoluteX_inv _ _ _ _ Hs HA) as HI.
    rewrite H, H0 in HI. exact HI.
  - intros ->. exists 1%nat.
    rewrite (getAbsoluteX_unfold _ _ _ _ Hs), H, H0. done.
  - intros HA. pose proof (AbsoluteY_inv _ _ _ _ Hs HA) as HI.
    rewrite H, H0 in HI. exact HI.
  - intros ->. exists 1%nat.
    rewrite (getAbsoluteY_unfold _ _ _ _ Hs), H, H0. done.
  - intros HA. pose proof (AbsoluteX_inv _ _ _ _ Hs HA) as HI.
    rewrite H in HI. exact HI.
  - intros ->. exists 1%nat.
    rewrite (getAbsoluteX_unfold _ _ _ _ Hs), H. done.
  - intros HA. pose proof (AbsoluteY_inv _ _ _ _ Hs HA) as HI.
    rewrite H in HI. exact HI.
  - intros ->. exists 1%nat.
    rewrite (getAbsoluteY_unfold _ _ _ _ Hs), H. done.
Qed.

(** ** C3: the default rectangle test *)

Lemma containsPoint_default fuel o this s ax ay px py :
  o !! this = Some s → is_Circle s = false →
  getAbsoluteX fuel o this = Some ax → getAbsoluteY fuel o this = Some ay →
  containsPoint fuel o this px py =
    Some (bool_decide (ax ≤ px ≤ ax + width s ∧ ay ≤ py ≤ ay + height s)).
Proof.
  intros Hs Hc Hx Hy. unfold containsPoint. rewrite Hs. simpl.
  assert (∀ b : bool,
    b = ((px - ax >=? 0) && (px - ax <=? width s) &&
         (py - ay >=? 0) && (py - ay <=? height s))%bool →
    Some b = Some (bool_decide (ax ≤ px ≤ ax + width s ∧ ay ≤ py ≤ ay + height s)))
    as Hb.
  { intros b ->. f_equal. rewrite !Z.geb_leb.
    destruct (bool_decide _) eqn:E.
    - apply bool_decide_eq_true in E.
      rewrite !andb_true_iff, !Z.leb_le. lia.
    - apply bool_decide_eq_false in E.
      apply not_true_is_false. rewrite !andb_true_iff, !Z.leb_le. lia. }
  unfold is_Circle in Hc.
  destruct (class s); try done; rewrite Hx, Hy; simpl; by apply Hb.
Qed.

(** *** Rounding is the identity on integers up to 2^53 *)

Lemma threshold_big : 2 ^ 53 < overflow_threshold.
Proof. vm_compute. reflexivity. Qed.

Lemma round53_exact z : Z.abs z ≤ 2 ^ 53 → round53 z = z.
Proof.
  intros Hz. unfold round53.
  destruct (Z.eq_dec (Z.abs z) (2 ^ 53)) as [E|E].
  - destruct (Z.abs_eq_or_opp z) as [Ha|Ha]; rewrite Ha in E.
    + subst z. vm_compute. reflexivity.
    + assert (z = - 2 ^ 53) as -> by lia. vm_compute. reflexivity.
  - assert (Z.log2 (Z.abs z) - 52 ≤ 0) as Hk.
    { destruct (Z.eq_dec (Z.abs z) 0) as [E0|E0]; [rewrite E0; simpl; lia|].
      assert (Z.log2 (Z.abs z) < 53); [|lia].
      apply Z.log2_lt_pow2; lia. }
    apply Z.leb_le in Hk. by rewrite Hk.
Qed.

Lemma of_exact_exact z : Z.abs z ≤ 2 ^ 53 → of_exact z = Finite z.
Proof.
  intros Hz. unfold of_exact. rewrite (round53_exact z Hz).
  pose proof threshold_big.
  destruct (Z.leb_spec overflow_threshold z); [lia|].
  destruct (Z.leb_spec z (- overflow_threshold)); [lia|]. done.
Qed.

Lemma dleb_zero_of_exact v : dleb (Finite 0) (of_exact v) = (0 <=? round53 v).
Proof.
  unfold of_exact. pose proof threshold_big.
  destruct (Z.leb_spec overflow_threshold (round53 v)).
  - simpl. symmetry. apply Z.leb_le. lia.
  - destruct (Z.leb_spec (round53 v) (- overflow_threshold)); [|done].
    simpl. symmetry. apply Z.leb_gt. lia.
Qed.

Lemma dleb_of_exact_Finite v c :
  Z.abs c ≤ 2 ^ 53 → dleb (of_exact v) (Finite c) = (round53 v <=? c).
Proof.
  intros Hc. unfold of_exact. pose proof threshold_big.
  destruct (Z.leb_spec overflow_threshold (round53 v)).
  - simpl. symmetry. apply Z.leb_gt. lia.
  - destruct (Z.leb_spec (round53 v) (- overflow_threshold)); [|done].
    simpl. symmetry. apply Z.leb_le. lia.
Qed.

Lemma num_0 : num 0 = Finite 0.
Proof. apply of_exact_exact. simpl. lia. Qed.

(** The default test in doubles, spelled out: the differences are
    rounded, the four comparisons are inclusive. *)
Lemma containsPoint64_default fuel o this s ax ay px py :
  o !! this = Some s → is_Circle s = false →
  getAbsoluteX64 fuel o this = Some (Finite ax) →
  getAbsoluteY64 fuel o this = Some (Finite ay) →
  Z.abs (width s) ≤ 2 ^ 53 → Z.abs (height s) ≤ 2 ^ 53 →
  containsPoint64 fuel o this (Finite px) (Finite py) =
    Some ((0 <=? round53 (px - ax)) && (round53 (px - ax) <=? width s) &&
          (0 <=? round53 (py - ay)) && (round53 (py - ay) <=? height s)).
Proof.
  intros Hs Hc Hx Hy Hw Hh. unfold containsPoint64. rewrite Hs. simpl.
  assert (Some (dgeb (dsub (Finite px) (Finite ax)) (num 0) &&
                dleb (dsub (Finite px) (Finite ax)) (num (width s)) &&
                dgeb (dsub (Finite py) (Finite ay)) (num 0) &&
                dleb (dsub (Finite py) (Finite ay)) (num (height s))) =
          Some ((0 <=? round53 (px - ax)) && (round53 (px - ax) <=? width s) &&
                (0 <=? round53 (py - ay)) && (round53 (py - ay) <=? height s))) as E.
  { unfold dgeb, dsub, dneg, dadd, num. rewrite !(of_exact_exact 0) by (simpl; lia).
    rewrite (of_exact_exact (width s)), (of_exact_exact (height s)) by done.
    rewrite !dleb_zero_of_exact, !dleb_of_exact_Finite by done. done. }
  unfold is_Circle in Hc.
  destruct (class s); try done; rewrite Hx, Hy; exact E.
Qed.

(** C3, counterexample.  A rectangle at x = -1 of width 2^53: the point
    with x = 2^53 lies one unit to the right of its right edge
    (-1 + 2^53), but the difference 2^53 - (-1) is rounded to 2^53, which
    is not more than the width, and the test answers true. *)
Lemma C3_rounding_counterexample :
  ∃ s,
    objs wide_rectangle.2 !! wide_rectangle.1 = Some s ∧
    getAbsoluteX64 1 (objs wide_rectangle.2) wide_rectangle.1 = Some (Finite (-1)) ∧
    getAbsoluteY64 1 (objs wide_rectangle.2) wide_rectangle.1 = Some (Finite 0) ∧
    width s = 2 ^ 53 ∧ height s = 10 ∧
    containsPoint64 1 (objs wide_rectangle.2) wide_rectangle.1
      (Finite (2 ^ 53)) (Finite 5) = Some true ∧
    ¬ (-1 ≤ 2 ^ 53 ≤ -1 + width s ∧ 0 ≤ 5 ≤ 0 + height s).
Proof.
  eexists. split; [vm_compute; reflexivity|].
  split; [vm_compute; reflexivity|]. split; [vm_compute; reflexivity|].
  split; [reflexivity|]. split; [reflexivity|].
  split; [vm_compute; reflexivity|].
  simpl. lia.
Qed.

(** C3, amended.  For a node that keeps the default [containsPoint] (any
    class but [Circle]), with absolute position (ax, ay) and a size of
    magnitude at most 2^53, and for integer points: the call returns true
    exactly when 0 <= x (-) ax <= width and 0 <= y (-) ay <= height, where
    (-) is the subtraction in doubles, all four comparisons inclusive.
    When the two differences have magnitude at most 2^53 (nothing is
    rounded) this is ax <= x <= ax + width and ay <= y <= ay + height.
    With a non-negative size, the points on the four edges are inside
    (under the same bound on the other coordinate); the points one unit
    beyond an edge are outside (for a width or height below 2^53 on the
    right and below). *)
Theorem C3_containsPoint_inclusive (fuel : nat) (o : gmap nat Shape)
    (this : nat) (s : Shape) (ax ay : Z) :
  o !! this = Some s → is_Circle s = false →
  getAbsoluteX64 fuel o this = Some (Finite ax) →
  getAbsoluteY64 fuel o this = Some (Finite ay) →
  Z.abs (width s) ≤ 2 ^ 53 → Z.abs (height s) ≤ 2 ^ 53 →
  (∀ px py, ∃ b,
     containsPoint64 fuel o this (Finite px) (Finite py) = Some b ∧
     (b = true ↔ 0 ≤ round53 (px - ax) ≤ width s ∧
                 0 ≤ round53 (py - ay) ≤ height s)) ∧
  (∀ px py, Z.abs (px - ax) ≤ 2 ^ 53 → Z.abs (py - ay) ≤ 2 ^ 53 →
     ∃ b,
       containsPoint64 fuel o this (Finite px) (Finite py) = Some b ∧
       (b = true ↔ ax ≤ px ≤ ax + width s ∧ ay ≤ py ≤ ay + height s)) ∧
  (0 ≤ width s → ∀ q, ay ≤ q ≤ ay + height s →
     containsPoint64 fuel o this (Finite ax) (Finite q) = Some true ∧
     containsPoint64 fuel o this (Finite (ax + width s)) (Finite q) = Some true) ∧
  (0 ≤ height s → ∀ q, ax ≤ q ≤ ax + width s →
     containsPoint64 fuel o this (Finite q) (Finite ay) = Some true ∧
     containsPoint64 fuel o this (Finite q) (Finite (ay + height s)) = Some true) ∧
  (∀ q, containsPoint64 fuel o this (Finite (ax - 1)) (Finite q) = Some false ∧
        containsPoint64 fuel o this (Finite q) (Finite (ay - 1)) = Some false) ∧
  (width s < 2 ^ 53 → ∀ q,
     containsPoint64 fuel o this (Finite (ax + width s + 1)) (Finite q) = Some false) ∧
  (height s < 2 ^ 53 → ∀ q,
     containsPoint64 fuel o this (Finite q) (Finite (ay + height s + 1)) = Some false).
Proof.
  intros Hs Hc Hx Hy Hw Hh.
  pose proof (containsPoint64_default fuel o this s ax ay) as D.
  assert (∀ px py (P : Prop),
    (((0 <=? round53 (px - ax)) && (round53 (px - ax) <=? width s) &&
      (0 <=? round53 (py - ay)) && (round53 (py - ay) <=? height s)) = true ↔ P) →
    ∃ b, containsPoint64 fuel o this (Finite px) (Finite py) = Some b ∧ (b = true ↔ P))
    as Hex.
  { intros px py P HP. eexists. split; [by apply D|]. exact HP. }
  assert (∀ px py,
    ((0 <=? round53 (px - ax)) && (round53 (px - ax) <=? width s) &&
     (0 <=? round53 (py - ay)) && (round53 (py - ay) <=? height s)) = true ↔
    0 ≤ round53 (px - ax) ≤ width s ∧ 0 ≤ round53 (py - ay) ≤ height s) as Hbool.
  { intros px py. rewrite !andb_true_iff, !Z.leb_le. lia. }
  assert (∀ px py b,
    (b = true ↔ 0 ≤ round53 (px - ax) ≤ width s ∧ 0 ≤ round53 (py - ay) ≤ height s) →
    ((0 <=? round53 (px - ax)) && (round53 (px - ax) <=? width s) &&
     (0 <=? round53 (py - ay)) && (round53 (py - ay) <=? height s)) = b) as Hval.
  { intros px py b Hb. apply eq_true_iff_eq. rewrite Hbool. symmetry. exact Hb. }
  split; [|split; [|split; [|split; [|split; [|split]]]]].
  - intros px py. apply Hex, Hbool.
  - intros px py Hpx Hpy. apply Hex. rewrite Hbool.
    rewrite (round53_exact _ Hpx), (round53_exact _ Hpy). lia.
  - intros Hw0 q Hq. split; rewrite D by done; f_equal; apply Hval.
    + rewrite !round53_exact by lia. split; [lia|done].
    + rewrite !round53_exact by lia. split; [lia|done].
  - intros Hh0 q Hq. split; rewrite D by done; f_equal; apply Hval.
    + rewrite !round53_exact by lia. split; [lia|done].
    + rewrite !round53_exact by lia. split; [lia|done].
  - intros q. split; rewrite D by done; f_equal; apply Hval.
    + rewrite (round53_exact (ax - 1 - ax)) by lia. split; [done|lia].
    + rewrite (round53_exact (ay - 1 - ay)) by lia. split; [done|lia].
  - intros Hw1 q. rewrite D by done. f_equal. apply Hval.
    rewrite (round53_exact (ax + width s + 1 - ax)) by lia. split; [done|lia].
  - intros Hh1 q. rewrite D by done. f_equal. apply Hval.
    rewrite (round53_exact (ay + height s + 1 - ay)) by lia. split; [done|lia].
Qed.

(** ** C4: the circle test *)

Lemma Math_sqrt_le_spec d2 r :
  0 ≤ d2 → Math_sqrt_le d2 r = true ↔ (sqrt (IZR d2) <= IZR r)%R.
Proof.
  intros Hd. unfold Math_sqrt_le.
  rewrite andb_true_iff, !Z.leb_le. split.
  - intros [Hr Hle].
    replace (IZR r) with (sqrt (IZR r * IZR r))
      by (apply sqrt_square, IZR_le; done).
    apply sqrt_le_1_alt. rewrite <- mult_IZR. by apply IZR_le.
  - intros H.
    assert (0 <= IZR r)%R as Hr0
      by (eapply Rle_trans; [apply sqrt_pos | exact H]).
    split; [by apply le_IZR|].
    apply le_IZR. rewrite mult_IZR.
    rewrite <- (sqrt_sqrt (IZR d2)) by (by apply IZR_le).
    apply Rmult_le_compat; try apply sqrt_pos; done.
Qed.

Lemma distance_IZR px py cx cy :
  distance px py cx cy = sqrt (IZR ((px - cx) ^ 2 + (py - cy) ^ 2)).
Proof.
  unfold distance. f_equal.
  rewrite !Z.pow_2_r, plus_IZR, !mult_IZR, !minus_IZR. reflexivity.
Qed.

(** Where nothing is rounded the comparison [Math.sqrt(d2) <= r] in
    doubles agrees with the exact one: for 0 <= d2 <= 2^53 and |r| < 2^26
    the 53-bit square root of d2 has more fractional bits than r has
    integer bits, so rounding it cannot carry it across r. *)
Lemma Math_sqrt_leb_exact d2 r :
  0 ≤ d2 ≤ 2 ^ 53 → Z.abs r < 2 ^ 26 →
  Math_sqrt_leb (Finite d2) (Finite r) = Math_sqrt_le d2 r.
Proof.
  intros [Hd0 Hd1] Hr. unfold Math_sqrt_leb, Math_sqrt_le.
  destruct (Z.ltb_spec d2 0) as [?|_]; [lia|].
  destruct (Z.eqb_spec d2 0) as [->|Hne].
  - simpl. destruct (Z.leb_spec 0 r); simpl; [|done].
    symmetry. apply Z.leb_le. nia.
  - unfold sqrt_round.
    assert (Z.log2 d2 ≤ 53) as Hlog.
    { change 53 with (Z.log2 (2 ^ 53)). by apply Z.log2_le_mono. }
    pose proof (Z.log2_nonneg d2) as Hlog0.
    set (e := Z.log2 d2 / 2 - 52).
    assert (Z.log2 d2 / 2 < 27) as Hhalf
      by (apply Z.div_lt_upper_bound; lia).
    assert (e ≤ -26) as He by (unfold e; lia).
    destruct (Z.leb_spec e 0) as [_|?]; [|lia].
    set (t := 2 ^ (- e)).
    assert (2 ^ 26 ≤ t) as Ht by (apply Z.pow_le_mono_r; lia).
    set (M := d2 * (t * t)).
    assert (0 ≤ M) as HM by (unfold M; nia).
    pose proof (Z.sqrt_spec M HM) as [Hlo Hhi].
    pose proof (Z.sqrt_nonneg M) as Hm0.
    fold Z.succ in Hhi.
    set (m0 := Z.sqrt M) in *.
    assert (M < (m0 + 1) * (m0 + 1)) as Hhi' by (unfold Z.succ in Hhi; lia).
    clear Hhi.
    destruct (Z.leb_spec 0 e) as [?|_]; [lia|].
    assert (∀ a b : Z, 0 ≤ a → a * a < b * b → 0 ≤ b → a < b) as Hsq
      by (intros; nia).
    assert (0 < t) as Ht0 by lia.
    destruct (Z.leb_spec 0 r) as [Hr0|Hr0]; simpl.
    + assert (0 ≤ r * t) as Hrt by nia.
      destruct (Z.leb_spec d2 (r * r)) as [Hin|Hout].
      * (* inside: M <= (r t)^2 *)
        assert (M ≤ (r * t) * (r * t)) as HMle by (unfold M; nia).
        destruct (Z.ltb_spec m0 (M - m0 * m0)); apply Z.leb_le.
        -- assert (m0 < r * t); [|lia]. apply Hsq; [done| |done]. lia.
        -- assert (m0 < r * t + 1); [|lia]. apply Hsq; [done| |lia]. nia.
      * (* outside: M >= (r t)^2 + t^2 *)
        assert ((r * t) * (r * t) + t * t ≤ M) as HMge by (unfold M; nia).
        destruct (Z.ltb_spec m0 (M - m0 * m0)); apply Z.leb_gt.
        -- assert (r * t < m0 + 1); [|lia]. apply Hsq; [done| |lia]. nia.
        -- assert (r * t < m0); [|lia].
           destruct (Z.lt_ge_cases (r * t) m0) as [|Hle]; [done|].
           assert (m0 * m0 ≤ (r * t) * (r * t)) by nia.
           assert (t * t ≤ r * t) by nia.
           assert (r < t) by lia. nia.
    + destruct (Z.ltb_spec m0 (M - m0 * m0)); apply Z.leb_gt; nia.
Qed.

(** C4, counterexample.  A circle of radius 2^26 at (0, 0), center
    (2^26, 2^26), and the point (2^27, 2^26 + 1): the squared distance is
    2^52 + 1, so the point is farther from the center than the radius,
    but the square root is rounded to 2^26 and the test answers true. *)
Lemma C4_rounding_counterexample :
  ∃ s,
    objs big_circle.2 !! big_circle.1 = Some s ∧
    class s = Circle (2 ^ 26) "red" ∧
    getAbsoluteX64 1 (objs big_circle.2) big_circle.1 = Some (Finite 0) ∧
    getAbsoluteY64 1 (objs big_circle.2) big_circle.1 = Some (Finite 0) ∧
    containsPoint64 1 (objs big_circle.2) big_circle.1
      (Finite (2 ^ 27)) (Finite (2 ^ 26 + 1)) = Some true ∧
    (distance (2 ^ 27) (2 ^ 26 + 1) (0 + 2 ^ 26) (0 + 2 ^ 26) > IZR (2 ^ 26))%R.
Proof.
  eexists. split; [vm_compute; reflexivity|].
  split; [reflexivity|].
  split; [vm_compute; reflexivity|]. split; [vm_compute; reflexivity|].
  split; [vm_compute; reflexivity|].
  apply Rnot_le_gt. intros H.
  rewrite distance_IZR in H. apply Math_sqrt_le_spec in H.
  - vm_compute in H. discriminate.
  - vm_compute. discriminate.
Qed.

(** C4, amended.  For a circle whose absolute position is (ax, ay), the
    center is (ax + radius, ay + radius).  For integer coordinates in the
    range where the doubles compute exactly (a radius of magnitude below
    2^26, a center of magnitude at most 2^53, a point within 2^26 of the
    center on each axis), [containsPoint] returns true exactly when the
    Euclidean distance from the point to the center is at most the
    radius: a point at distance exactly [radius] is inside, a point
    farther away is outside. *)
Theorem C4_circle_containsPoint (fuel : nat) (o : gmap nat Shape)
    (this : nat) (s : Shape) (radius : Z) (fillColor : string) (ax ay : Z) :
  o !! this = Some s → class s = Circle radius fillColor →
  getAbsoluteX64 fuel o this = Some (Finite ax) →
  getAbsoluteY64 fuel o this = Some (Finite ay) →
  Z.abs radius < 2 ^ 26 →
  Z.abs (ax + radius) ≤ 2 ^ 53 → Z.abs (ay + radius) ≤ 2 ^ 53 →
  ∀ px py,
    Z.abs (px - (ax + radius)) ≤ 2 ^ 26 → Z.abs (py - (ay + radius)) ≤ 2 ^ 26 →
    ∃ b, containsPoint64 fuel o this (Finite px) (Finite py) = Some b ∧
      (b = true ↔ (distance px py (ax + radius) (ay + radius) <= IZR radius)%R) ∧
      (distance px py (ax + radius) (ay + radius) = IZR radius → b = true) ∧
      ((distance px py (ax + radius) (ay + radius) > IZR radius)%R → b = false).
Proof.
  intros Hs Hc Hx Hy Hr Hcx Hcy px py Hpx Hpy.
  set (dx := px - (ax + radius)) in *. set (dy := py - (ay + radius)) in *.
  assert (Math_sqrt_leb
            (dadd (Math_pow2 (dsub (Finite px) (dadd (Finite ax) (num radius))))
                  (Math_pow2 (dsub (Finite py) (dadd (Finite ay) (num radius)))))
            (num radius) = Math_sqrt_le (dx ^ 2 + dy ^ 2) radius) as E64.
  { assert (dx * dx ≤ 2 ^ 52) by nia. assert (dy * dy ≤ 2 ^ 52) by nia.
    unfold num. rewrite (of_exact_exact radius) by lia.
    unfold dadd at 2 3. rewrite (of_exact_exact (ax + radius)) by done.
    rewrite (of_exact_exact (ay + radius)) by done.
    unfold dsub, dneg, dadd at 2 3.
    change (px + - (ax + radius)) with dx. change (py + - (ay + radius)) with dy.
    rewrite (of_exact_exact dx), (of_exact_exact dy) by lia.
    unfold Math_pow2, dmul.
    rewrite (of_exact_exact (dx * dx)), (of_exact_exact (dy * dy)) by nia.
    unfold dadd. rewrite (of_exact_exact (dx * dx + dy * dy)) by nia.
    rewrite !Z.pow_2_r. apply Math_sqrt_leb_exact; [nia|done]. }
  assert (containsPoint64 fuel o this (Finite px) (Finite py) =
          Some (Math_sqrt_le (dx ^ 2 + dy ^ 2) radius)) as Hcall.
  { rewrite <- E64. unfold containsPoint64. rewrite Hs.
    cbn [mbind option_bind]. rewrite Hc, Hx.
    cbn [mbind option_bind]. rewrite Hy. reflexivity. }
  exists (Math_sqrt_le (dx ^ 2 + dy ^ 2) radius). split; [exact Hcall|].
  assert (Math_sqrt_le (dx ^ 2 + dy ^ 2) radius = true ↔
          (distance px py (ax + radius) (ay + radius) <= IZR radius)%R) as E.
  { rewrite distance_IZR. apply Math_sqrt_le_spec. fold dx dy.
    rewrite !Z.pow_2_r.
    pose proof (Z.square_nonneg dx). pose proof (Z.square_nonneg dy). lia. }
  split; [exact E|]. split.
  - intros Hd. apply E. rewrite Hd. apply Rle_refl.
  - intros Hd. apply not_true_is_false. intros Ht. apply E in Ht. lra.
Qed.

(** ** The dispatch loop *)

Section Scan.
Variables (test : nat → option bool) (deliver : nat → option World)
          (own : option World).

Lemma scan_app kids more k :
  (k ≤ length kids)%nat →
  scan test deliver own (kids ++ more) k = scan test deliver own kids k.
Proof.
  induction k as [|i IH]; intros Hk; simpl; [done|].
  rewrite lookup_app_l by lia.
  destruct (kids !! i) as [child|]; simpl; [|done].
  destruct (test child) as [[|]|]; simpl; try done. apply IH. lia.
Qed.

(** The last child is looked at first. *)
Lemma scan_snoc kids c :
  scan test deliver own (kids ++ [c]) (length (kids ++ [c])) =
    b ← test c;
    if b : bool then deliver c
    else scan test deliver own kids (length kids).
Proof.
  rewrite length_app. simpl. rewrite Nat.add_1_r. simpl.
  rewrite lookup_app_r by lia. rewrite Nat.sub_diag. simpl.
  destruct (test c) as [[|]|]; simpl; try done.
  by apply scan_app.
Qed.

(** The first hit from the end takes the event; whatever stands before
    it in the array is never looked at. *)
Lemma scan_hit before c after :
  (∀ d, d ∈ after → test d = Some false) → test c = Some true →
  scan test deliver own (before ++ c :: after) (length (before ++ c :: after))
    = deliver c.
Proof.
  revert before c. induction after as [|a after IH] using rev_ind;
    intros before c Hafter Hc.
  - rewrite scan_snoc, Hc. done.
  - replace (before ++ c :: after ++ [a]) with ((before ++ c :: after) ++ [a])
      by (by rewrite <- app_assoc).
    rewrite scan_snoc, (Hafter a) by set_solver. simpl.
    apply IH; [|done]. intros d Hd. apply Hafter. set_solver.
Qed.

Lemma scan_miss kids :
  (∀ d, d ∈ kids → test d = Some false) →
  scan test deliver own kids (length kids) = own.
Proof.
  induction kids as [|a kids IH] using rev_ind; intros Hk; [done|].
  rewrite scan_snoc, (Hk a) by set_solver. simpl.
  apply IH. intros d Hd. apply Hk. set_solver.
Qed.

(** Whatever the loop returns was returned by a delivery to one of the
    children or by the code after the loop. *)
Lemma scan_result kids k r :
  scan test deliver own kids k = Some r →
  (∃ c, c ∈ kids ∧ test c = Some true ∧ deliver c = Some r) ∨ own = Some r.
Proof.
  induction k as [|i IH]; simpl; intros H; [by right|].
  destruct (kids !! i) as [child|] eqn:Hi; simpl in H; [|done].
  destruct (test child) as [[|]|] eqn:Ht; simpl in H; try done.
  - left. exists child. split; [|done]. eapply list_elem_of_lookup_2. exact Hi.
  - by apply IH.
Qed.

Lemma scan_is_Some kids k :
  (k ≤ length kids)%nat →
  (∀ d, d ∈ kids → is_Some (test d) ∧ is_Some (deliver d)) → is_Some own →
  is_Some (scan test deliver own kids k).
Proof.
  intros Hk Hkids Hown. induction k as [|i IH]; simpl; [done|].
  destruct (lookup_lt_is_Some_2 kids i) as [child Hi]; [lia|].
  rewrite Hi. simpl.
  destruct (Hkids child) as [[b Hb] Hd];
    [eapply list_elem_of_lookup_2; exact Hi|].
  rewrite Hb. simpl. destruct b; [done|]. apply IH. lia.
Qed.
End Scan.

(** ** Termination on finite chains and finite trees *)

Lemma getAbsoluteX_terminates o this :
  FiniteChain o this → ∃ fuel v, getAbsoluteX fuel o this = Some v.
Proof.
  induction 1 as [this s Hs Hp | this s p Hs Hp _ (f & v & IH)].
  - exists 1%nat. rewrite (getAbsoluteX_unfold _ _ _ _ Hs), Hp.
    destruct (is_Scene s); eauto.
  - exists (S f). rewrite (getAbsoluteX_unfold _ _ _ _ Hs), Hp, IH.
    destruct (is_Scene s); simpl; eauto.
Qed.

Lemma getAbsoluteY_terminates o this :
  FiniteChain o this → ∃ fuel v, getAbsoluteY fuel o this = Some v.
Proof.
  induction 1 as [this s Hs Hp | this s p Hs Hp _ (f & v & IH)].
  - exists 1%nat. rewrite (getAbsoluteY_unfold _ _ _ _ Hs), Hp.
    destruct (is_Scene s); eauto.
  - exists (S f). rewrite (getAbsoluteY_unfold _ _ _ _ Hs), Hp, IH.
    destruct (is_Scene s); simpl; eauto.
Qed.

Lemma FiniteChain_lookup o this : FiniteChain o this → is_Some (o !! this).
Proof. destruct 1; eauto. Qed.

(** Both coordinates, under one budget. *)
Lemma absolute_terminates o this :
  FiniteChain o this →
  ∃ F ax ay, ∀ f, (F ≤ f)%nat →
    getAbsoluteX f o this = Some ax ∧ getAbsoluteY f o this = Some ay.
Proof.
  intros Hc.
  destruct (getAbsoluteX_terminates _ _ Hc) as (fx & ax & Hx).
  destruct (getAbsoluteY_terminates _ _ Hc) as (fy & ay & Hy).
  exists (fx + fy)%nat, ax, ay. intros f Hf. split.
  - eapply getAbsoluteX_mono; [exact Hx | lia].
  - eapply getAbsoluteY_mono; [exact Hy | lia].
Qed.

Lemma containsPoint_terminates o this px py :
  FiniteChain o this →
  ∃ F, ∀ f, (F ≤ f)%nat → is_Some (containsPoint f o this px py).
Proof.
  intros Hc. destruct (absolute_terminates _ _ Hc) as (F & ax & ay & HF).
  destruct (FiniteChain_lookup _ _ Hc) as [s Hs].
  exists F. intros f Hf. destruct (HF f Hf) as [Hx Hy].
  unfold containsPoint. rewrite Hs. simpl.
  destruct (class s); rewrite Hx, Hy; simpl; eauto.
Qed.

Lemma onClick_terminates this event w :
  FiniteChain (objs w) this →
  ∃ F, ∀ f, (F ≤ f)%nat → is_Some (onClick f this event w).
Proof.
  intros Hc. destruct (absolute_terminates _ _ Hc) as (F & ax & ay & HF).
  destruct (FiniteChain_lookup _ _ Hc) as [s Hs].
  exists F. intros f Hf. destruct (HF f Hf) as [Hx Hy].
  unfold onClick. rewrite Hs. simpl.
  destruct (class s); rewrite ?Hx, ?Hy; simpl; eauto.
Qed.

(** A handler that runs prints one line and touches nothing else. *)
Lemma onClick_log fuel this event w w' :
  onClick fuel this event w = Some w' →
  ∃ m, w' = log (MkLogEntry this m) w.
Proof.
  unfold onClick. intros H.
  destruct (objs w !! this) as [s|]; simpl in H; [|done].
  destruct (class s);
    try (destruct (getAbsoluteX fuel (objs w) this); simpl in H; [|done];
         destruct (getAbsoluteY fuel (objs w) this); simpl in H; [|done]);
    inversion H; eauto.
Qed.

Lemma InSubtree_trans o a b c :
  InSubtree o a b → InSubtree o b c → InSubtree o a c.
Proof.
  intros Hab Hbc. induction Hbc as [|d s child _ IH Hs Hin]; [done|].
  eapply subtree_child; eauto.
Qed.

Lemma InSubtree_child o this s child :
  o !! this = Some s → child ∈ children s → InSubtree o this child.
Proof. intros. eapply subtree_child; eauto. constructor. Qed.

Lemma handleEvent_unfold fuel this event w s :
  objs w !! this = Some s →
  handleEvent (S fuel) this event w =
    scan (λ child, containsPoint fuel (objs w) child (event_x event) (event_y event))
         (λ child, handleEvent fuel child event w)
         (if decide (type event = "click") then onClick fuel this event w
          else Some w)
         (children s) (length (children s)).
Proof. intros Hs. simpl. rewrite Hs. done. Qed.

(** A click that is dispatched ends in exactly one handler: the world
    that comes back is the old one plus one line, printed by a node of
    the subtree. *)
Lemma handleEvent_click_log fuel this event w w' :
  type event = "click" →
  handleEvent fuel this event w = Some w' →
  ∃ r m, w' = log (MkLogEntry r m) w ∧ InSubtree (objs w) this r.
Proof.
  intros Hclick. revert this w'.
  induction fuel as [|f IH]; intros this w' H; [done|].
  destruct (objs w !! this) as [s|] eqn:Hs; [|by simpl in H; rewrite Hs in H].
  rewrite (handleEvent_unfold _ _ _ _ _ Hs) in H.
  apply scan_result in H as [(c & Hin & _ & Hd) | Hown].
  - destruct (IH _ _ Hd) as (r & m & -> & Hsub).
    exists r, m. split; [done|].
    eapply InSubtree_trans; [|exact Hsub]. by eapply InSubtree_child.
  - rewrite decide_True in Hown by done.
    apply onClick_log in Hown as [m ->]. exists this, m. split; [done|constructor].
Qed.

(** An event of another kind leaves the world as it was. *)
Lemma handleEvent_other_kind fuel this event w w' :
  type event ≠ "click" →
  handleEvent fuel this event w = Some w' → w' = w.
Proof.
  intros Hk. revert this w'.
  induction fuel as [|f IH]; intros this w' H; [done|].
  destruct (objs w !! this) as [s|] eqn:Hs; [|by simpl in H; rewrite Hs in H].
  rewrite (handleEvent_unfold _ _ _ _ _ Hs) in H.
  apply scan_result in H as [(c & Hin & _ & Hd) | Hown]; [by eapply IH|].
  rewrite decide_False in Hown by done. congruence.
Qed.

Lemma bound_all (P : nat → nat → Prop) (l : list nat) :
  (∀ d, d ∈ l → ∃ F, ∀ f, (F ≤ f)%nat → P d f) →
  ∃ F, ∀ d, d ∈ l → ∀ f, (F ≤ f)%nat → P d f.
Proof.
  induction l as [|a l IH]; intros H.
  - exists 0%nat. intros d Hd. by apply elem_of_nil in Hd.
  - destruct (H a) as [Fa Ha]; [set_solver|].
    destruct IH as [Fl Hl]; [intros d Hd; apply H; set_solver|].
    exists (Fa + Fl)%nat. intros d Hd f Hf.
    apply elem_of_cons in Hd as [->|Hd]; [apply Ha | apply (Hl d Hd)]; lia.
Qed.

Lemma handleEvent_terminates this event w :
  FiniteTree (objs w) this →
  (∀ d, InSubtree (objs w) this d → FiniteChain (objs w) d) →
  ∃ F, ∀ f, (F ≤ f)%nat → is_Some (handleEvent f this event w).
Proof.
  induction 1 as [this s Hs Hkids IH]. intros Hchains.
  destruct (bound_all
    (λ d f, is_Some (containsPoint f (objs w) d (event_x event) (event_y event)) ∧
            is_Some (handleEvent f d event w)) (children s)) as [F HF].
  { intros d Hd.
    destruct (containsPoint_terminates (objs w) d (event_x event) (event_y event))
      as [F1 H1].
    { apply Hchains. by eapply InSubtree_child. }
    destruct (IH d Hd) as [F2 H2].
    { intros e He. apply Hchains.
      eapply InSubtree_trans; [by eapply InSubtree_child | exact He]. }
    exists (F1 + F2)%nat. intros f Hf. split; [apply H1 | apply H2]; lia. }
  destruct (onClick_terminates this event w) as [Fo Ho];
    [apply Hchains; constructor|].
  exists (S (F + Fo)). intros [|f] Hf; [lia|].
  rewrite (handleEvent_unfold _ _ _ _ _ Hs).
  apply scan_is_Some; [done| |].
  - intros d Hd. apply (HF d Hd). lia.
  - destruct (decide _); [apply Ho; lia | eauto].
Qed.

Lemma containsPoint_mono fuel fuel' o this px py b :
  containsPoint fuel o this px py = Some b → (fuel ≤ fuel')%nat →
  containsPoint fuel' o this px py = Some b.
Proof.
  unfold containsPoint. intros H Hle.
  destruct (o !! this) as [s|]; simpl in *; [|done].
  destruct (class s);
    (destruct (getAbsoluteX fuel o this) as [ax|] eqn:Hx; simpl in H; [|done]);
    (destruct (getAbsoluteY fuel o this) as [ay|] eqn:Hy; simpl in H; [|done]);
    rewrite (getAbsoluteX_mono _ _ _ _ _ Hx Hle),
            (getAbsoluteY_mono _ _ _ _ _ Hy Hle); done.
Qed.

Lemma onClick_mono fuel fuel' this event w r :
  onClick fuel this event w = Some r → (fuel ≤ fuel')%nat →
  onClick fuel' this event w = Some r.
Proof.
  unfold onClick. intros H Hle.
  destruct (objs w !! this) as [s|]; simpl in *; [|done].
  destruct (class s); try done;
    (destruct (getAbsoluteX fuel (objs w) this) as [ax|] eqn:Hx; simpl in H; [|done]);
    (destruct (getAbsoluteY fuel (objs w) this) as [ay|] eqn:Hy; simpl in H; [|done]);
    rewrite (getAbsoluteX_mono _ _ _ _ _ Hx Hle),
            (getAbsoluteY_mono _ _ _ _ _ Hy Hle); done.
Qed.

Lemma scan_mono test1 deliver1 own1 test2 deliver2 own2 kids k r :
  (∀ c b, test1 c = Some b → test2 c = Some b) →
  (∀ c r, deliver1 c = Some r → deliver2 c = Some r) →
  (∀ r, own1 = Some r → own2 = Some r) →
  scan test1 deliver1 own1 kids k = Some r →
  scan test2 deliver2 own2 kids k = Some r.
Proof.
  intros Ht Hd Ho. induction k as [|i IH]; simpl; [apply Ho|].
  destruct (kids !! i) as [child|]; simpl; [|done].
  destruct (test1 child) as [b|] eqn:E; simpl; [|done].
  rewrite (Ht _ _ E). simpl. destruct b; [apply Hd | apply IH].
Qed.

Lemma handleEvent_mono fuel fuel' this event w r :
  handleEvent fuel this event w = Some r → (fuel ≤ fuel')%nat →
  handleEvent fuel' this event w = Some r.
Proof.
  revert fuel' this r. induction fuel as [|f IH]; intros [|f'] this r H Hle;
    try done; try lia.
  destruct (objs w !! this) as [s|] eqn:Hs; [|by simpl in H; rewrite Hs in H].
  rewrite (handleEvent_unfold f _ _ _ _ Hs) in H.
  rewrite (handleEvent_unfold f' _ _ _ _ Hs).
  eapply scan_mono; [| | |exact H].
  - intros c b Hb. eapply containsPoint_mono; [exact Hb | lia].
  - intros c r' Hr. apply IH; [exact Hr | lia].
  - intros r'. destruct (decide _); [|done].
    intros Hr. eapply onClick_mono; [exact Hr | lia].
Qed.

(** ** C2: the last-added child that contains the point takes the event *)

(** C2.  [handleEvent] looks at the children from the last one backwards;
    at the first child [c] that contains the point it returns what
    [c.handleEvent(event)] returns, whatever stands before [c] in the
    array (those children are not even tested).  For children [A, B, C]
    where B and C contain the point the event goes into C.  A click that
    is dispatched in a finite tree returns, and the world that comes back
    has exactly one more console line, printed by one node of the
    subtree that took the event. *)
Theorem C2_dispatch_reverse_order :
  (∀ fuel this s event w before c after,
     objs w !! this = Some s →
     children s = before ++ c :: after →
     (∀ d, d ∈ after →
        containsPoint fuel (objs w) d (event_x event) (event_y event) = Some false) →
     containsPoint fuel (objs w) c (event_x event) (event_y event) = Some true →
     handleEvent (S fuel) this event w = handleEvent fuel c event w ∧
     (type event = "click" → ∀ w',
        handleEvent (S fuel) this event w = Some w' →
        ∃ r m, w' = log (MkLogEntry r m) w ∧ InSubtree (objs w) c r)) ∧
  (∀ fuel this s event w A B C,
     objs w !! this = Some s → children s = [A; B; C] →
     containsPoint fuel (objs w) B (event_x event) (event_y event) = Some true →
     containsPoint fuel (objs w) C (event_x event) (event_y event) = Some true →
     handleEvent (S fuel) this event w = handleEvent fuel C event w) ∧
  (∀ this event w,
     type event = "click" →
     FiniteTree (objs w) this →
     (∀ d, InSubtree (objs w) this d → FiniteChain (objs w) d) →
     ∃ F r m, InSubtree (objs w) this r ∧
       ∀ f, (F ≤ f)%nat → handleEvent f this event w = Some (log (MkLogEntry r m) w)).
Proof.
  assert (∀ fuel this s event w before c after,
     objs w !! this = Some s →
     children s = before ++ c :: after →
     (∀ d, d ∈ after →
        containsPoint fuel (objs w) d (event_x event) (event_y event) = Some false) →
     containsPoint fuel (objs w) c (event_x event) (event_y event) = Some true →
     handleEvent (S fuel) this event w = handleEvent fuel c event w) as Hhit.
  { intros fuel this s event w before c after Hs Hkids Hafter Hc.
    rewrite (handleEvent_unfold _ _ _ _ _ Hs), Hkids.
    by rewrite scan_hit. }
  split; [|split].
  - intros fuel this s event w before c after Hs Hkids Hafter Hc.
    split; [by eapply Hhit|].
    intros Hclick w'. rewrite (Hhit _ _ _ _ _ _ _ _ Hs Hkids Hafter Hc).
    by apply handleEvent_click_log.
  - intros fuel this s event w A B C Hs Hkids _ HC.
    apply (Hhit fuel this s event w [A; B] C []); try done.
    intros d Hd. by apply elem_of_nil in Hd.
  - intros this event w Hclick Htree Hchains.
    destruct (handleEvent_terminates this event w Htree Hchains) as [F HF].
    destruct (HF F) as [w' Hw']; [lia|].
    destruct (handleEvent_click_log _ _ _ _ _ Hclick Hw') as (r & m & -> & Hr).
    exists F, r, m. split; [done|].
    intros f Hf. eapply handleEvent_mono; [exact Hw' | lia].
Qed.

(** ** C7: an event no child takes *)

(** C7.  When no child contains the point, [handleEvent] is exactly the
    node's own [onClick] if the kind tag is "click", and otherwise
    returns the world untouched; an [onClick] that runs always leaves its
    line on the console, so in the second case no handler ran. *)
Theorem C7_fall_through (fuel : nat) (this : nat) (s : Shape)
    (event : HandleEvent) (w : World) :
  objs w !! this = Some s →
  (∀ d, d ∈ children s →
     containsPoint fuel (objs w) d (event_x event) (event_y event) = Some false) →
  (type event = "click" →
     handleEvent (S fuel) this event w = onClick fuel this event w) ∧
  (type event ≠ "click" → handleEvent (S fuel) this event w = Some w) ∧
  (∀ w', onClick fuel this event w = Some w' →
     ∃ m, w' = log (MkLogEntry this m) w ∧ console w' ≠ console w).
Proof.
  intros Hs Hmiss.
  rewrite (handleEvent_unfold _ _ _ _ _ Hs), scan_miss by done.
  split; [|split].
  - intros Hc. by rewrite decide_True.
  - intros Hc. by rewrite decide_False.
  - intros w' Hw'. apply onClick_log in Hw' as [m ->].
    exists m. split; [done|]. simpl. intros E.
    apply (f_equal length) in E. rewrite length_app in E. simpl in E. lia.
Qed.

(** ** C10: termination *)

(** C10, counterexample.  The leaf [a] has no children, so the tree
    below it is finite and acyclic; its ancestors [p] and [q] are each
    other's parent.  A click handled at [a] reaches [Rectangle.onClick],
    which asks for the absolute position and never gets an answer. *)
Lemma C10_cyclic_ancestors_counterexample :
  ∃ p q a w,
    cyclic_ancestors = Some (p, q, a, w) ∧
    FiniteTree (objs w) a ∧
    ∀ fuel, handleEvent fuel a (MouseClickEvent 5 5) w = None.
Proof.
  eexists _, _, _, _. split; [vm_compute; reflexivity|].
  match goal with |- FiniteTree (objs ?w) _ ∧ _ => set (W := w) end.
  assert (objs W !! 0%nat = Some (MkShape (Rectangle "black") 0 0 10 10 [1; 2]%nat (Some 1%nat)))
    as H0 by (vm_compute; reflexivity).
  assert (objs W !! 1%nat = Some (MkShape (Rectangle "black") 0 0 10 10 [0]%nat (Some 0%nat)))
    as H1 by (vm_compute; reflexivity).
  assert (objs W !! 2%nat = Some (MkShape (Rectangle "black") 0 0 10 10 [] (Some 0%nat)))
    as H2 by (vm_compute; reflexivity).
  clearbody W. split.
  - eapply tree_node; [exact H2|]. simpl. intros c Hc. by apply elem_of_nil in Hc.
  - assert (∀ f, getAbsoluteX f (objs W) 0%nat = None ∧
                 getAbsoluteX f (objs W) 1%nat = None) as Hcyc.
    { induction f as [|f [IH0 IH1]]; [done|].
      rewrite (getAbsoluteX_unfold _ _ _ _ H0), (getAbsoluteX_unfold _ _ _ _ H1).
      simpl. rewrite IH0, IH1. done. }
    intros [|[|f]]; [done| |].
    + rewrite (handleEvent_unfold _ _ _ _ _ H2). simpl.
      unfold onClick. rewrite H2. done.
    + rewrite (handleEvent_unfold _ _ _ _ _ H2). simpl.
      unfold onClick. rewrite H2.
      rewrite (getAbsoluteX_unfold _ _ _ _ H2). simpl.
      destruct (Hcyc f) as [-> _]. done.
Qed.

(** C10, amended.  On a finite parent chain [getAbsoluteX] and
    [getAbsoluteY] return (for every large enough recursion budget, with
    one and the same result).  [handleEvent] returns when the tree of
    children below the node is finite and acyclic and, in addition, every
    node of that tree has a finite parent chain.  There is no cycle
    check: a node that is not a Scene and is its own parent never gets an
    absolute position. *)
Theorem C10_termination :
  (∀ o this, FiniteChain o this →
     ∃ F ax ay, ∀ f, (F ≤ f)%nat →
       getAbsoluteX f o this = Some ax ∧ getAbsoluteY f o this = Some ay) ∧
  (∀ this event w,
     FiniteTree (objs w) this →
     (∀ d, InSubtree (objs w) this d → FiniteChain (objs w) d) →
     ∃ F w', ∀ f, (F ≤ f)%nat → handleEvent f this event w = Some w') ∧
  (∀ o this s, o !! this = Some s → is_Scene s = false → parent s = Some this →
     ∀ f, getAbsoluteX f o this = None ∧ getAbsoluteY f o this = None).
Proof.
  split; [|split].
  - apply absolute_terminates.
  - intros this event w Htree Hchains.
    destruct (handleEvent_terminates this event w Htree Hchains) as [F HF].
    destruct (HF F) as [w' Hw']; [lia|].
    exists F, w'. intros f Hf. eapply handleEvent_mono; [exact Hw' | lia].
  - intros o this s Hs Hsc Hp. induction f as [|f [IHx IHy]]; [done|].
    rewrite (getAbsoluteX_unfold _ _ _ _ Hs), (getAbsoluteY_unfold _ _ _ _ Hs).
    rewrite Hsc, Hp, IHx, IHy. done.
Qed.

(** ** Editing the tree *)

Lemma assign_Some id f w s :
  objs w !! id = Some s →
  assign id f w = Some (with_objs (<[id := f s]> (objs w)) w).
Proof. intros Hs. unfold assign. rewrite Hs. done. Qed.

Lemma indexOf_absent l v : v ∉ l → indexOf l v = -1.
Proof.
  induction l as [|a l IH]; intros Hv; simpl; [done|].
  rewrite decide_False by set_solver. rewrite IH by set_solver. done.
Qed.

Lemma indexOf_range l v : -1 ≤ indexOf l v.
Proof.
  induction l as [|a l IH]; simpl; [lia|].
  destruct (decide _); [lia|]. destruct (_ =? _); lia.
Qed.

(** [indexOf] finds the first occurrence. *)
Lemma indexOf_first l1 v l2 :
  v ∉ l1 → indexOf (l1 ++ v :: l2) v = Z.of_nat (length l1).
Proof.
  induction l1 as [|a l1 IH]; intros Hv; simpl.
  - by rewrite decide_True.
  - rewrite decide_False by set_solver. rewrite IH by set_solver.
    destruct (_ =? _) eqn:E; [apply Z.eqb_eq in E|]; lia.
Qed.

Lemma splice1_middle (l1 : list nat) v l2 :
  splice1 (l1 ++ v :: l2) (Z.of_nat (length l1)) = l1 ++ l2.
Proof.
  unfold splice1. rewrite Nat2Z.id.
  rewrite take_app_length.
  replace (S (length l1)) with (length (l1 ++ [v])) by (rewrite length_app; simpl; lia).
  replace (l1 ++ v :: l2) with ((l1 ++ [v]) ++ l2) by (by rewrite <- app_assoc).
  by rewrite drop_app_length.
Qed.

(** Every list that holds [v] splits at the first occurrence of [v]. *)
Lemma first_occurrence (l : list nat) v :
  v ∈ l → ∃ l1 l2, l = l1 ++ v :: l2 ∧ v ∉ l1.
Proof.
  induction l as [|a l IH]; intros Hv; [by apply elem_of_nil in Hv|].
  destruct (decide (a = v)) as [->|Hne].
  - exists [], l. split; [done|]. apply not_elem_of_nil.
  - destruct IH as (l1 & l2 & -> & Hl1).
    { apply elem_of_cons in Hv as [Hv|Hv]; [congruence | exact Hv]. }
    exists (a :: l1), l2. split; [done|].
    intros Hin. apply elem_of_cons in Hin as [Hin|Hin]; [congruence | by apply Hl1].
Qed.

Lemma removeChild_absent this child w s :
  objs w !! this = Some s → child ∉ children s →
  removeChild this child w = Some w.
Proof.
  intros Hs Hc. unfold removeChild. rewrite Hs. simpl.
  rewrite indexOf_absent by done. done.
Qed.

Lemma removeChild_present this child w s sc l1 l2 :
  objs w !! this = Some s → objs w !! child = Some sc →
  children s = l1 ++ child :: l2 → child ∉ l1 →
  ∃ w' s' sc',
    removeChild this child w = Some w' ∧
    objs w' !! this = Some s' ∧ children s' = l1 ++ l2 ∧
    objs w' !! child = Some sc' ∧ parent sc' = None ∧
    (∀ j, j ≠ this → j ≠ child → objs w' !! j = objs w !! j) ∧
    ctxs w' = ctxs w ∧ console w' = console w.
Proof.
  intros Hs Hsc Hkids Hl1. unfold removeChild. rewrite Hs. simpl.
  rewrite Hkids, indexOf_first by done.
  replace (Z.of_nat (length l1) =? -1) with false by (symmetry; apply Z.eqb_neq; lia).
  simpl. rewrite (assign_Some _ _ _ _ Hs). simpl.
  rewrite Hkids, splice1_middle.
  destruct (decide (this = child)) as [->|Hne].
  - erewrite assign_Some by (simpl; apply lookup_insert_eq).
    eexists _, _, _. split; [reflexivity|]. simpl.
    rewrite lookup_insert_eq.
    repeat split; try done.
    intros j Hj _. by rewrite !lookup_insert_ne.
  - erewrite assign_Some by (simpl; rewrite lookup_insert_ne by done; exact Hsc).
    eexists _, _, _. split; [reflexivity|]. simpl.
    rewrite lookup_insert_ne, !lookup_insert_eq by done.
    repeat split; try done.
    intros j Hj1 Hj2. by rewrite !lookup_insert_ne.
Qed.

(** ** C6: removeChild *)

(** C6, counterexample.  After [p.addChild(c); p.addChild(c)] the array
    of [p] holds [c] twice.  The first [p.removeChild(c)] takes out one
    occurrence; the second call is no no-op, it takes out the other. *)
Lemma C6_second_removal_counterexample :
  ∃ p c w w1 w2 s1 s2,
    added_twice = Some (p, c, w) ∧
    removeChild p c w = Some w1 ∧ removeChild p c w1 = Some w2 ∧
    objs w1 !! p = Some s1 ∧ objs w2 !! p = Some s2 ∧
    children s1 = [c] ∧ children s2 = [] ∧ w2 ≠ w1.
Proof.
  eexists _, _, _, _, _, _, _.
  split; [vm_compute; reflexivity|].
  split; [vm_compute; reflexivity|].
  split; [vm_compute; reflexivity|].
  split; [vm_compute; reflexivity|].
  split; [vm_compute; reflexivity|].
  split; [reflexivity|]. split; [reflexivity|].
  intros E. apply (f_equal (λ w, children <$> objs w !! 0%nat)) in E.
  vm_compute in E. discriminate E.
Qed.

(** C6, amended.  [removeChild(node)] on a container whose array holds
    the node takes out the first occurrence and sets the node's [parent]
    to null, touching no other object; when the array does not hold the
    node it returns with the world unchanged.  When the array held the
    node exactly once, a second call with the same node is such a
    no-op. *)
Theorem C6_removeChild (this child : nat) (w : World) (s sc : Shape) :
  objs w !! this = Some s → objs w !! child = Some sc →
  (child ∉ children s → removeChild this child w = Some w) ∧
  (∀ l1 l2, children s = l1 ++ child :: l2 → child ∉ l1 →
     ∃ w' s' sc',
       removeChild this child w = Some w' ∧
       objs w' !! this = Some s' ∧ children s' = l1 ++ l2 ∧
       objs w' !! child = Some sc' ∧ parent sc' = None ∧
       (∀ j, j ≠ this → j ≠ child → objs w' !! j = objs w !! j) ∧
       ctxs w' = ctxs w ∧ console w' = console w ∧
       (child ∉ l2 → removeChild this child w' = Some w')).
Proof.
  intros Hs Hsc. split; [by apply removeChild_absent|].
  intros l1 l2 Hkids Hl1.
  destruct (removeChild_present _ _ _ _ _ _ _ Hs Hsc Hkids Hl1)
    as (w' & s' & sc' & Hr & Hs' & Hk' & Hsc' & Hp' & Hframe & Hctx & Hcon).
  exists w', s', sc'. repeat split; try done.
  intros Hl2. eapply removeChild_absent; [exact Hs'|].
  rewrite Hk'. intros Hin. apply elem_of_app in Hin as [Hin|Hin]; [by apply Hl1 | by apply Hl2].
Qed.

(** ** C9: addChild on a node that already has a parent *)

(** C9, counterexample.  A [Scene] is added to [c1] and then to [c2],
    which sits at x = 5.  It then stands in both arrays and its parent is
    [c2], but its absolute x is 0, not that of [c2] plus its own: the
    coordinates of a [Scene] resolve through no parent at all. *)
Lemma C9_scene_child_counterexample :
  ∃ c1 c2 sc w s1 s2 s,
    scene_moved = Some (c1, c2, sc, w) ∧
    objs w !! c1 = Some s1 ∧ objs w !! c2 = Some s2 ∧ objs w !! sc = Some s ∧
    sc ∈ children s1 ∧ sc ∈ children s2 ∧ parent s = Some c2 ∧
    AbsoluteX (objs w) c2 5 ∧ AbsoluteX (objs w) sc 0 ∧
    ¬ (∀ v v2, AbsoluteX (objs w) sc v → AbsoluteX (objs w) c2 v2 → v = v2 + x s).
Proof.
  eexists _, _, _, _, _, _, _.
  split; [vm_compute; reflexivity|].
  split; [vm_compute; reflexivity|].
  split; [vm_compute; reflexivity|].
  split; [vm_compute; reflexivity|].
  split; [simpl; set_solver|]. split; [simpl; set_solver|].
  split; [reflexivity|].
  assert (∀ (o : gmap nat Shape) i v, getAbsoluteX 1 o i = Some v → AbsoluteX o i v)
    as HA by (intros o i v Hv; by exists 1%nat).
  split; [apply HA; vm_compute; reflexivity|].
  split; [apply HA; vm_compute; reflexivity|].
  intros H. specialize (H 0 5).
  assert (0 = 5 + 0) as E; [|lia].
  apply H; apply HA; vm_compute; reflexivity.
Qed.

(** C9, amended.  [addChild(node)] on a container C2 always returns; it
    appends the node to C2's array and sets the node's [parent] to C2,
    whether or not the node already stands in the array of another
    container C1.  The array of every other object, C1 included, is
    unchanged, so the node is then in both arrays while its parent is C2
    alone.  Unless the node is a [Scene], its absolute coordinates are
    then those of C2 plus its local offset. *)
Theorem C9_addChild (C2 node : nat) (w : World) (s2 sn : Shape) :
  objs w !! C2 = Some s2 → objs w !! node = Some sn →
  ∃ w' s2' sn',
    addChild C2 node w = Some w' ∧
    objs w' !! C2 = Some s2' ∧ children s2' = children s2 ++ [node] ∧
    objs w' !! node = Some sn' ∧ parent sn' = Some C2 ∧
    (∀ C1 s1, C1 ≠ C2 → objs w !! C1 = Some s1 →
       ∃ s1', objs w' !! C1 = Some s1' ∧ children s1' = children s1 ∧
              (node ∈ children s1 → node ∈ children s1' ∧ node ∈ children s2')) ∧
    (∀ j, j ≠ C2 → j ≠ node → objs w' !! j = objs w !! j) ∧
    ctxs w' = ctxs w ∧ console w' = console w ∧
    (is_Scene sn = false → ∀ f,
       getAbsoluteX (S f) (objs w') node =
         (λ v, v + x sn) <$> getAbsoluteX f (objs w') C2 ∧
       getAbsoluteY (S f) (objs w') node =
         (λ v, v + y sn) <$> getAbsoluteY f (objs w') C2).
Proof.
  intros H2 Hn. unfold addChild.
  rewrite (assign_Some _ _ _ _ H2). cbn [mbind option_bind].
  destruct (decide (C2 = node)) as [->|Hne].
  - assert (sn = s2) as -> by congruence.
    erewrite assign_Some by (cbn [objs with_objs]; apply lookup_insert_eq).
    eexists _, _, _. split; [reflexivity|]. cbn [objs with_objs ctxs console].
    rewrite lookup_insert_eq.
    split; [reflexivity|]. split; [done|]. split; [reflexivity|]. split; [done|].
    split; [|split; [|split; [done|split; [done|]]]].
    + intros C1 s1 Hc Hs1. exists s1. rewrite !lookup_insert_ne by done.
      split; [done|]. split; [done|]. intros Hin. split; [done|].
      apply elem_of_app. right. by apply list_elem_of_singleton.
    + intros j Hj _. by rewrite !lookup_insert_ne.
    + intros Hsc f.
      erewrite getAbsoluteX_unfold by apply lookup_insert_eq.
      erewrite getAbsoluteY_unfold by apply lookup_insert_eq.
      unfold is_Scene in *. simpl. by rewrite Hsc.
  - erewrite assign_Some by (cbn [objs with_objs]; rewrite lookup_insert_ne by done; exact Hn).
    eexists _, _, _. split; [reflexivity|]. cbn [objs with_objs ctxs console].
    rewrite lookup_insert_ne, !lookup_insert_eq by done.
    split; [reflexivity|]. split; [done|]. split; [reflexivity|]. split; [done|].
    split; [|split; [|split; [done|split; [done|]]]].
    + intros C1 s1 Hc Hs1. destruct (decide (C1 = node)) as [->|Hcn].
      * rewrite lookup_insert_eq. eexists. split; [reflexivity|].
        assert (s1 = sn) as -> by congruence. simpl.
        split; [done|]. intros Hin. split; [done|].
        apply elem_of_app. right. by apply list_elem_of_singleton.
      * exists s1. rewrite !lookup_insert_ne by done.
        split; [done|]. split; [done|]. intros Hin. split; [done|].
        apply elem_of_app. right. by apply list_elem_of_singleton.
    + intros j Hj1 Hj2. by rewrite !lookup_insert_ne.
    + intros Hsc f.
      erewrite getAbsoluteX_unfold by apply lookup_insert_eq.
      erewrite getAbsoluteY_unfold by apply lookup_insert_eq.
      unfold is_Scene in *. simpl. by rewrite Hsc.
Qed.

(** ** Painting *)

Lemma get_ctx_upd_eq c f w : get_ctx c (upd_ctx c f w) = f (get_ctx c w).
Proof. unfold get_ctx, upd_ctx. simpl. by rewrite lookup_insert_eq. Qed.

Lemma get_ctx_upd_ne c c' f w : c ≠ c' → get_ctx c' (upd_ctx c f w) = get_ctx c' w.
Proof. intros Hne. unfold get_ctx, upd_ctx. simpl. by rewrite lookup_insert_ne. Qed.

Lemma get_ctx_with_objs c o w : get_ctx c (with_objs o w) = get_ctx c w.
Proof. reflexivity. Qed.

Lemma paintChars_cons ctx absX item items absY w :
  paintChars ctx absX (item :: items) absY w =
  paintChars ctx absX items (absY + 20)
    (upd_ctx ctx (call (fillText item absX (absY + 20))) w).
Proof. reflexivity. Qed.

(** The loop over the characters: the offset advances by 20 per
    character, the context receives one [fillText] per character, and
    nothing else changes. *)
Lemma paintChars_spec ctx absX items absY w :
  (paintChars ctx absX items absY w).1 = absY + 20 * Z.of_nat (length items) ∧
  objs (paintChars ctx absX items absY w).2 = objs w ∧
  console (paintChars ctx absX items absY w).2 = console w ∧
  ctx_font (get_ctx ctx (paintChars ctx absX items absY w).2) = ctx_font (get_ctx ctx w) ∧
  ctx_fillStyle (get_ctx ctx (paintChars ctx absX items absY w).2)
    = ctx_fillStyle (get_ctx ctx w) ∧
  ctx_strokeStyle (get_ctx ctx (paintChars ctx absX items absY w).2)
    = ctx_strokeStyle (get_ctx ctx w) ∧
  calls (get_ctx ctx (paintChars ctx absX items absY w).2)
    = calls (get_ctx ctx w) ++ text_lines absX absY items ∧
  ∀ c, c ≠ ctx → get_ctx c (paintChars ctx absX items absY w).2 = get_ctx c w.
Proof.
  revert absY w. induction items as [|item items IH]; intros absY w.
  - unfold paintChars. simpl. rewrite app_nil_r.
    repeat split; try done. lia.
  - rewrite paintChars_cons.
    destruct (IH (absY + 20) (upd_ctx ctx (call (fillText item absX (absY + 20))) w))
      as (H1 & H2 & H3 & H4 & H5 & H6 & H7 & H8).
    rewrite H1, H2, H3, H4, H5, H6, H7. rewrite get_ctx_upd_eq. simpl.
    repeat split; try done.
    + lia.
    + by rewrite <- app_assoc.
    + intros c Hc. rewrite H8 by done. by apply get_ctx_upd_ne.
Qed.

Lemma text_lines_lookup absX absY items i item :
  items !! i = Some item →
  text_lines absX absY items !! i
    = Some (fillText item absX (absY + 20 * (Z.of_nat i + 1))).
Proof.
  revert absY i. induction items as [|a items IH]; intros absY [|i] H;
    simpl in *; try done.
  - inversion H. do 2 f_equal; lia.
  - rewrite (IH _ _ H). do 2 f_equal; lia.
Qed.

Lemma text_lines_length absX absY items :
  length (text_lines absX absY items) = length items.
Proof. revert absY. induction items; intros; simpl; auto. Qed.

Section PaintingFacts.
Variable measureText : string → list N → Z.

(** [draw] of a text node, up to the loop over the children. *)
Lemma draw_CustomText fuel this ctx w s text font fillColor absX absY :
  objs w !! this = Some s → class s = CustomText text font fillColor →
  getAbsoluteX fuel (objs w) this = Some absX →
  getAbsoluteY fuel (objs w) this = Some absY →
  let w2 := upd_ctx ctx (set_fillStyle fillColor) (upd_ctx ctx (set_font font) w) in
  let w3 := (paintChars ctx absX (split text) absY w2).2 in
  let s' := set_height (absY + 20 * Z.of_nat (length (split text)) + 20)
              (set_width (measureText font (item0 (split text))) s) in
  draw measureText (S fuel) this ctx w =
    forEach (λ child, draw measureText fuel child ctx) (children s)
      (with_objs (<[this := s']> (objs w)) w3).
Proof.
  intros Hs Hc Hx Hy w2 w3 s'. simpl. rewrite Hs. simpl. rewrite Hc, Hx, Hy. simpl.
  fold w2.
  pose proof (paintChars_spec ctx absX (split text) absY w2)
    as (H1 & H2 & H3 & H4 & _).
  destruct (paintChars ctx absX (split text) absY w2) as [absY' w3'] eqn:E.
  simpl in *. subst w3.
  assert (objs w3' !! this = Some s) as Hs3 by (by rewrite H2).
  rewrite (assign_Some _ _ _ _ Hs3). simpl.
  erewrite assign_Some by (simpl; apply lookup_insert_eq). simpl.
  rewrite insert_insert_eq, H2. f_equal.
  unfold with_objs. simpl. f_equal. f_equal.
  subst s' absY'. unfold set_height, set_width. simpl. f_equal.
  rewrite H4. subst w2. rewrite !get_ctx_upd_eq. done.
Qed.

(** One [draw], for every class: the record of [this] becomes what
    [measured] says, the console is not touched, and the children are
    drawn next. *)
Lemma draw_shape fuel this ctx w s :
  objs w !! this = Some s →
  match measured measureText fuel (objs w) this s with
  | None => draw measureText (S fuel) this ctx w = None
  | Some s' =>
    ∃ w1, objs w1 = <[this := s']> (objs w) ∧ console w1 = console w ∧
      draw measureText (S fuel) this ctx w =
        forEach (λ child, draw measureText fuel child (child_ctx s ctx))
          (children s) w1
  end.
Proof.
  intros Hs. unfold measured, child_ctx.
  destruct (class s) as [sc|r fc|text font fc|c|sc] eqn:Hc.
  1,2,5: simpl; rewrite Hs; simpl; rewrite Hc;
    destruct (getAbsoluteX fuel (objs w) this) as [ax|]; simpl; [|done];
    destruct (getAbsoluteY fuel (objs w) this) as [ay|]; simpl; [|done];
    eexists; split; [|split; [|reflexivity]]; simpl;
    [by rewrite insert_id | done].
  - destruct (getAbsoluteX fuel (objs w) this) as [ax|] eqn:Hx;
      [|by simpl; rewrite Hs; simpl; rewrite Hc, Hx].
    destruct (getAbsoluteY fuel (objs w) this) as [ay|] eqn:Hy;
      [|by simpl; rewrite Hs; simpl; rewrite Hc, Hx, Hy].
    cbn [mbind option_bind].
    eexists. split; [|split; [|by eapply draw_CustomText]]; simpl; [done|].
    pose proof (paintChars_spec ctx ax (split text) ay
      (upd_ctx ctx (set_fillStyle fc) (upd_ctx ctx (set_font font) w)))
      as (_ & _ & H3 & _).
    exact H3.
  - simpl. rewrite Hs. simpl. rewrite Hc.
    eexists; split; [|split; [|reflexivity]]; simpl;
    [by rewrite insert_id | done].
Qed.

(** *** The size is all that painting changes *)

Lemma same_skeleton_refl o : same_skeleton o o.
Proof. done. Qed.

Lemma same_skeleton_trans o1 o2 o3 :
  same_skeleton o1 o2 → same_skeleton o2 o3 → same_skeleton o1 o3.
Proof. intros H1 H2 j. by rewrite H1. Qed.

Lemma same_skeleton_lookup o o' j s :
  same_skeleton o o' → o !! j = Some s →
  ∃ s', o' !! j = Some s' ∧ skeleton s' = skeleton s.
Proof.
  intros H Hs. specialize (H j). rewrite Hs in H.
  destruct (o' !! j) as [s'|]; simpl in H; [|done].
  exists s'. split; [done|]. congruence.
Qed.

Lemma same_skeleton_insert o j s s' :
  o !! j = Some s → skeleton s' = skeleton s →
  same_skeleton o (<[j := s']> o).
Proof.
  intros Hs Hsk i. destruct (decide (j = i)) as [->|Hne].
  - rewrite lookup_insert_eq, Hs. simpl. by rewrite Hsk.
  - by rewrite lookup_insert_ne.
Qed.

Lemma getAbsoluteX_skeleton fuel o o' this :
  same_skeleton o o' → getAbsoluteX fuel o this = getAbsoluteX fuel o' this.
Proof.
  intros H. revert this. induction fuel as [|f IH]; intros this; [done|].
  simpl. pose proof (H this) as Hj.
  destruct (o !! this) as [s|], (o' !! this) as [s'|]; simpl in *; try done.
  unfold skeleton in Hj. inversion Hj as [[E1 E2 E3 E4 E5]].
  rewrite E1, E2, E5. destruct (class s'); try done;
    destruct (parent s'); try done; by rewrite IH.
Qed.

Lemma getAbsoluteY_skeleton fuel o o' this :
  same_skeleton o o' → getAbsoluteY fuel o this = getAbsoluteY fuel o' this.
Proof.
  intros H. revert this. induction fuel as [|f IH]; intros this; [done|].
  simpl. pose proof (H this) as Hj.
  destruct (o !! this) as [s|], (o' !! this) as [s'|]; simpl in *; try done.
  unfold skeleton in Hj. inversion Hj as [[E1 E2 E3 E4 E5]].
  rewrite E1, E3, E5. destruct (class s'); try done;
    destruct (parent s'); try done; by rewrite IH.
Qed.

Lemma getAbsoluteX64_skeleton fuel o o' this :
  same_skeleton o o' → getAbsoluteX64 fuel o this = getAbsoluteX64 fuel o' this.
Proof.
  intros H. revert this. induction fuel as [|f IH]; intros this; [done|].
  simpl. pose proof (H this) as Hj.
  destruct (o !! this) as [s|], (o' !! this) as [s'|]; simpl in *; try done.
  unfold skeleton in Hj. inversion Hj as [[E1 E2 E3 E4 E5]].
  rewrite E1, E2, E5. destruct (class s'); try done;
    destruct (parent s'); try done; by rewrite IH.
Qed.

Lemma getAbsoluteY64_skeleton fuel o o' this :
  same_skeleton o o' → getAbsoluteY64 fuel o this = getAbsoluteY64 fuel o' this.
Proof.
  intros H. revert this. induction fuel as [|f IH]; intros this; [done|].
  simpl. pose proof (H this) as Hj.
  destruct (o !! this) as [s|], (o' !! this) as [s'|]; simpl in *; try done.
  unfold skeleton in Hj. inversion Hj as [[E1 E2 E3 E4 E5]].
  rewrite E1, E3, E5. destruct (class s'); try done;
    destruct (parent s'); try done; by rewrite IH.
Qed.

Lemma measured_skeleton fuel o this s s' :
  measured measureText fuel o this s = Some s' → skeleton s' = skeleton s.
Proof.
  unfold measured. intros H.
  destruct (class s); try (by inversion H);
    (destruct (getAbsoluteX fuel o this); simpl in H; [|done]);
    (destruct (getAbsoluteY fuel o this); simpl in H; [|done]);
    inversion H; done.
Qed.

(** Whether [measured] answers depends on the skeleton only. *)
Lemma measured_is_Some fuel o o' this s sa s' :
  same_skeleton o o' → skeleton sa = skeleton s →
  measured measureText fuel o this s = Some s' →
  is_Some (measured measureText fuel o' this sa).
Proof.
  intros Ho Hsk. unfold measured.
  rewrite <- (getAbsoluteX_skeleton fuel o o' this Ho).
  rewrite <- (getAbsoluteY_skeleton fuel o o' this Ho).
  unfold skeleton in Hsk. inversion Hsk as [[E1 E2 E3 E4 E5]]. rewrite E1.
  destruct (class s); try (by eauto);
    (destruct (getAbsoluteX fuel o this); simpl; [|done]);
    (destruct (getAbsoluteY fuel o this); simpl; [|done]); eauto.
Qed.

(** Measuring a record that was just measured gives it back. *)
Lemma measured_twice f1 f2 o o' this s s1 s2 :
  same_skeleton o o' →
  measured measureText f1 o this s = Some s1 →
  measured measureText f2 o' this s1 = Some s2 → s2 = s1.
Proof.
  intros Ho. unfold measured. intros H1 H2.
  rewrite <- (getAbsoluteX_skeleton f2 o o' this Ho) in H2.
  rewrite <- (getAbsoluteY_skeleton f2 o o' this Ho) in H2.
  destruct (class s) eqn:Hc;
    try (destruct (getAbsoluteX f1 o this); simpl in H1; [|done];
         destruct (getAbsoluteY f1 o this) as [a1|] eqn:Hy1; simpl in H1; [|done]);
    inversion H1 as [E]; subst s1; simpl in H2; rewrite ?Hc in H2;
    try (destruct (getAbsoluteX f2 o this); simpl in H2; [|done];
         destruct (getAbsoluteY f2 o this) as [a2|] eqn:Hy2; simpl in H2; [|done]);
    inversion H2; try done.
  rewrite (getAbsoluteY_det _ _ _ _ _ _ Hy2 Hy1). done.
Qed.

Lemma stable_transfer o o' j :
  same_skeleton o o' → o' !! j = o !! j →
  stable measureText o j → stable measureText o' j.
Proof.
  intros Ho Hj Hst s fuel s' Hs Hm. rewrite Hj in Hs.
  apply (Hst s fuel s' Hs). unfold measured in *.
  by rewrite (getAbsoluteX_skeleton fuel o o' j Ho),
             (getAbsoluteY_skeleton fuel o o' j Ho).
Qed.

Lemma repaints_forEach (f : nat → nat → World → option World) :
  (∀ child, repaints measureText (f child)) →
  ∀ l, repaints measureText (λ ctx, forEach (λ child, f child ctx) l).
Proof.
  intros Hf. induction l as [|a l IH]; intros ctx w w' H; simpl in H.
  - inversion H; subst w'. split; [done|]. split; [done|].
    intros wa ctxa _ _. by exists wa.
  - destruct (f a ctx w) as [wm|] eqn:Ha; simpl in H; [|done].
    destruct (Hf a ctx w wm Ha) as (A1 & A2 & A3).
    destruct (IH ctx wm w' H) as (B1 & B2 & B3).
    split; [by eapply same_skeleton_trans|]. split.
    + intros j Hj. rewrite B2; [by apply A2|].
      eapply stable_transfer; [exact A1 | by apply A2 | exact Hj].
    + intros wa ctxa Hsk Hst.
      destruct (A3 wa ctxa) as (wb1 & Hb1 & Ho1).
      { by eapply same_skeleton_trans. }
      { intros j Hj. apply Hst.
        eapply stable_transfer; [exact B1 | by apply B2 | exact Hj]. }
      destruct (B3 wb1 ctxa) as (wb & Hb & Ho).
      { by rewrite Ho1. }
      { intros j Hj. rewrite Ho1. by apply Hst. }
      exists wb. simpl. rewrite Hb1. simpl. split; [exact Hb | congruence].
Qed.

Lemma repaints_draw fuel this : repaints measureText (draw measureText fuel this).
Proof.
  revert this. induction fuel as [|f IH]; intros this ctx w w' H; [done|].
  destruct (objs w !! this) as [s|] eqn:Hs; [|by simpl in H; rewrite Hs in H].
  pose proof (draw_shape f this ctx w s Hs) as D.
  destruct (measured measureText f (objs w) this s) as [s'|] eqn:Hm; [|congruence].
  destruct D as (w1 & Ho1 & _ & D). rewrite D in H.
  destruct (repaints_forEach (draw measureText f) IH (children s) _ _ _ H)
    as (B1 & B2 & B3).
  assert (same_skeleton (objs w) (objs w1)) as A1.
  { rewrite Ho1. eapply same_skeleton_insert; [exact Hs|].
    by eapply measured_skeleton. }
  assert (stable measureText (objs w1) this) as St1.
  { intros s0 f0 s0' Hs0 Hm0. rewrite Ho1, lookup_insert_eq in Hs0.
    inversion Hs0; subst s0. eapply measured_twice; [exact A1 | exact Hm | exact Hm0]. }
  assert (∀ j, stable measureText (objs w) j → objs w1 !! j = objs w !! j) as A2.
  { intros j Hj. rewrite Ho1. destruct (decide (this = j)) as [<-|Hne].
    - rewrite lookup_insert_eq, Hs. f_equal. by eapply Hj.
    - by rewrite lookup_insert_ne. }
  split; [by eapply same_skeleton_trans|]. split.
  - intros j Hj. rewrite B2; [by apply A2|].
    eapply stable_transfer; [exact A1 | by apply A2 | exact Hj].
  - intros wa ctxa Hsk Hst.
    assert (same_skeleton (objs w) (objs wa)) as Hwa.
    { eapply same_skeleton_trans; [|exact Hsk]. by eapply same_skeleton_trans. }
    destruct (same_skeleton_lookup _ _ _ _ Hwa Hs) as (sa & Hsa & Hska).
    destruct (measured_is_Some f _ _ this s sa s' Hwa Hska Hm) as [sa' Hma].
    assert (sa' = sa) as ->.
    { eapply (Hst this); [|exact Hsa|exact Hma].
      eapply stable_transfer; [exact B1 | by apply B2 | exact St1]. }
    pose proof (draw_shape f this ctxa wa sa Hsa) as Da. rewrite Hma in Da.
    destruct Da as (wa1 & Hoa1 & _ & Da).
    rewrite insert_id in Hoa1 by done.
    assert (children sa = children s) as Hkids
      by (unfold skeleton in Hska; congruence).
    destruct (B3 wa1 (child_ctx sa ctxa)) as (wb & Hb & Hob).
    { by rewrite Hoa1. }
    { intros j Hj. rewrite Hoa1. by apply Hst. }
    exists wb. rewrite Da, Hkids. split; [exact Hb | congruence].
Qed.

(** The record a text node has when its [draw] returns: the children
    drawn after it do not touch it. *)
Lemma draw_text_result fuel this ctx w w' s text font fillColor absY :
  objs w !! this = Some s → class s = CustomText text font fillColor →
  getAbsoluteY fuel (objs w) this = Some absY →
  draw measureText (S fuel) this ctx w = Some w' →
  same_skeleton (objs w) (objs w') ∧
  objs w' !! this =
    Some (set_height (absY + 20 * Z.of_nat (length (split text)) + 20)
            (set_width (measureText font (item0 (split text))) s)).
Proof.
  intros Hs Hc Hy H.
  split; [by apply (repaints_draw (S fuel) this ctx w w' H)|].
  pose proof (draw_shape fuel this ctx w s Hs) as D.
  destruct (measured measureText fuel (objs w) this s) as [s'|] eqn:Hm; [|congruence].
  destruct D as (w1 & Ho1 & _ & D). rewrite D in H.
  assert (same_skeleton (objs w) (objs w1)) as A1.
  { rewrite Ho1. eapply same_skeleton_insert; [exact Hs|].
    by eapply measured_skeleton. }
  destruct (repaints_forEach (draw measureText fuel) (repaints_draw fuel)
              (children s) _ _ _ H) as (_ & B2 & _).
  rewrite (B2 this).
  - rewrite Ho1, lookup_insert_eq. f_equal.
    unfold measured in Hm. rewrite Hc, Hy in Hm.
    destruct (getAbsoluteX fuel (objs w) this); simpl in Hm; [|done]. congruence.
  - intros s0 f0 s0' Hs0 Hm0. rewrite Ho1, lookup_insert_eq in Hs0.
    inversion Hs0; subst s0. eapply measured_twice; [exact A1 | exact Hm | exact Hm0].
Qed.

End PaintingFacts.

(** ** C5: what CustomText.draw paints and measures *)

(** C5, counterexample.  A text node "a" alone at the origin: the running
    offset of the loop ends at 20 (one character), and [draw] leaves the
    height 40, not 20. *)
Lemma C5_height_counterexample :
  ∃ w' s',
    draw ten_per_char 2 lone_text.1 0 lone_text.2 = Some w' ∧
    objs w' !! lone_text.1 = Some s' ∧
    (paintChars 0 0 (split (units "a")) 0 lone_text.2).1 = 20 ∧
    height s' = 40 ∧
    height s' ≠ (paintChars 0 0 (split (units "a")) 0 lone_text.2).1.
Proof.
  eexists _, _.
  split; [vm_compute; reflexivity|].
  split; [vm_compute; reflexivity|].
  split; [reflexivity|]. split; [reflexivity|].
  vm_compute. discriminate.
Qed.

(** C5, amended.  [CustomText.draw] on a text node at absolute position
    (absX, absY): sets the font and the fill color and paints code unit i
    (from 0) of its string by [fillText], each on a line of its own, the
    running offset growing by 20 before each one: line i is at
    (absX, absY + 20 * (i + 1)) and the offset ends at absY + 20 * n for
    n code units (for |absY| + 20 * n <= 2^53, where these sums are
    exact in doubles).  Then it sets the node's width to the measured
    width of the first code unit (of the text "undefined" when the
    string is empty) and overwrites the node's height: for a node whose
    absolute y is 0 with the final offset plus one more line, 20 * n + 20
    (the value stored at other positions is left open here).  Then it
    draws the children.  When the call returns, the node carries the
    measured width and the stored height, and [containsPoint] tests
    against them, not against the zero size of the constructor. *)
Theorem C5_text_draw (measureText : string → list N → Z)
    (fuel this ctx : nat) (w : World) (s : Shape)
    (text : list N) (font fillColor : string) (absX absY : Z) :
  objs w !! this = Some s → class s = CustomText text font fillColor →
  getAbsoluteX fuel (objs w) this = Some absX →
  getAbsoluteY fuel (objs w) this = Some absY →
  let n := Z.of_nat (length text) in
  (∃ w1 s1,
     draw measureText (S fuel) this ctx w =
       forEach (λ child, draw measureText fuel child ctx) (children s) w1 ∧
     objs w1 = <[this := s1]> (objs w) ∧ skeleton s1 = skeleton s ∧
     width s1 = measureText font (item0 (split text)) ∧
     console w1 = console w ∧
     ctx_font (get_ctx ctx w1) = font ∧ ctx_fillStyle (get_ctx ctx w1) = fillColor ∧
     calls (get_ctx ctx w1) = calls (get_ctx ctx w) ++ text_lines absX absY (split text) ∧
     (absY = 0 → height s1 = 20 * n + 20)) ∧
  (length (text_lines absX absY (split text)) = length text ∧
   (Z.abs absY + 20 * n ≤ 2 ^ 53 →
    ∀ i c, text !! i = Some c →
      text_lines absX absY (split text) !! i
        = Some (fillText [c] absX (absY + 20 * (Z.of_nat i + 1))))) ∧
  (Z.abs absY + 20 * n ≤ 2 ^ 53 →
   ∀ w0, (paintChars ctx absX (split text) absY w0).1 = absY + 20 * n) ∧
  (∀ c rest, text = c :: rest → item0 (split text) = [c]) ∧
  (text = [] → item0 (split text) = units "undefined") ∧
  (∀ w', draw measureText (S fuel) this ctx w = Some w' →
     ∃ s', objs w' !! this = Some s' ∧ skeleton s' = skeleton s ∧
       width s' = measureText font (item0 (split text)) ∧
       (absY = 0 → height s' = 20 * n + 20) ∧
       ∀ px py, containsPoint64 fuel (objs w') this px py =
         ax ← getAbsoluteX64 fuel (objs w) this;
         ay ← getAbsoluteY64 fuel (objs w) this;
         Some (dgeb (dsub px ax) (num 0) && dleb (dsub px ax) (num (width s')) &&
               dgeb (dsub py ay) (num 0) && dleb (dsub py ay) (num (height s')))).
Proof.
  intros Hs Hc Hx Hy n.
  assert (length (split text) = length text) as Hlen
    by (clear; induction text; simpl; auto).
  assert (∀ i c, text !! i = Some c → split text !! i = Some [c]) as Hsplit.
  { clear. induction text as [|a l IH]; intros [|i] c H; simpl in *; try done.
    - by inversion H.
    - by apply IH. }
  split; [|split; [|split; [|split; [|split]]]].
  - eexists _, _. split; [by eapply draw_CustomText|].
    rewrite !get_ctx_with_objs. cbn [objs console with_objs].
    pose proof (paintChars_spec ctx absX (split text) absY
      (upd_ctx ctx (set_fillStyle fillColor) (upd_ctx ctx (set_font font) w)))
      as (_ & _ & H3 & H4 & H5 & _ & H7 & _).
    rewrite H3, H4, H5, H7, !get_ctx_upd_eq.
    do 7 (split; [done|]).
    intros ->. cbn [height set_height]. rewrite Hlen. fold n. lia.
  - split; [by rewrite text_lines_length|].
    intros _ i c Hi. apply text_lines_lookup. by apply Hsplit.
  - intros _ w0. unfold n. rewrite <- Hlen. apply paintChars_spec.
  - intros c rest ->. done.
  - intros ->. done.
  - intros w' H.
    destruct (draw_text_result measureText _ _ _ _ _ _ _ _ _ _ Hs Hc Hy H) as [Hsk Hs'].
    eexists. split; [exact Hs'|]. split; [done|]. split; [done|].
    split.
    { intros ->. cbn [height set_height]. rewrite Hlen. fold n. lia. }
    intros px py. unfold containsPoint64. rewrite Hs'.
    cbn [mbind option_bind class set_height set_width].
    rewrite Hc.
    rewrite <- (getAbsoluteX64_skeleton fuel _ _ this Hsk).
    rewrite <- (getAbsoluteY64_skeleton fuel _ _ this Hsk). done.
Qed.

(** ** C8: drawing again changes no size *)

Lemma new_CustomText_lookup x0 y0 text font fillColor w :
  objs (new_CustomText x0 y0 text font fillColor w).2
    !! (new_CustomText x0 y0 text font fillColor w).1
  = Some (MkShape (CustomText text font fillColor) x0 y0 0 0 [] None).
Proof. unfold new_CustomText, alloc. simpl. apply lookup_insert_eq. Qed.

(** C8.  When a [draw] returns, a further [draw] of the same node (on any
    context) returns too and leaves every record, and so every width and
    height, as the first one left it.  Two draws of text nodes with the
    same string and font at the same absolute y compute the same width
    and height.  Before any draw a text node has the zero size it was
    constructed with, so only its anchor point is contained. *)
Theorem C8_draw_stable (measureText : string → list N → Z) :
  (∀ fuel this ctx ctx' w w1,
     draw measureText fuel this ctx w = Some w1 →
     ∃ w2, draw measureText fuel this ctx' w1 = Some w2 ∧ objs w2 = objs w1) ∧
  (∀ fuel fuela this thisa ctx ctxa w wa w' wa' s sa text font fc fca absY,
     objs w !! this = Some s → objs wa !! thisa = Some sa →
     class s = CustomText text font fc → class sa = CustomText text font fca →
     getAbsoluteY fuel (objs w) this = Some absY →
     getAbsoluteY fuela (objs wa) thisa = Some absY →
     draw measureText (S fuel) this ctx w = Some w' →
     draw measureText (S fuela) thisa ctxa wa = Some wa' →
     ∃ s' sa', objs w' !! this = Some s' ∧ objs wa' !! thisa = Some sa' ∧
       width s' = width sa' ∧ height s' = height sa') ∧
  (∀ x0 y0 text font fc w px py,
     let t := (new_CustomText x0 y0 text font fc w).1 in
     let w' := (new_CustomText x0 y0 text font fc w).2 in
     containsPoint 1 (objs w') t px py = Some (bool_decide (px = x0 ∧ py = y0))).
Proof.
  split; [|split].
  - intros fuel this ctx ctx' w w1 H.
    destruct (repaints_draw measureText fuel this ctx w w1 H) as (_ & _ & R).
    apply (R w1 ctx'); done.
  - intros fuel fuela this thisa ctx ctxa w wa w' wa' s sa text font fc fca absY
      Hs Hsa Hc Hca Hy Hya H Ha.
    destruct (draw_text_result measureText _ _ _ _ _ _ _ _ _ _ Hs Hc Hy H) as [_ Hs'].
    destruct (draw_text_result measureText _ _ _ _ _ _ _ _ _ _ Hsa Hca Hya Ha) as [_ Hsa'].
    eexists _, _. split; [exact Hs'|]. split; [exact Hsa'|]. done.
  - intros x0 y0 text font fc w px py t w'.
    pose proof (new_CustomText_lookup x0 y0 text font fc w) as Hl.
    fold t w' in Hl.
    rewrite (containsPoint_default 1 (objs w') t _ x0 y0 px py Hl); try done.
    + f_equal. simpl. apply bool_decide_ext. lia.
    + by rewrite (getAbsoluteX_unfold _ _ _ _ Hl).
    + by rewrite (getAbsoluteY_unfold _ _ _ _ Hl).
Qed.

(** * The theorems at work on the example scenes *)

(** The text of [palace_scene] sits at 60 + 20 = 80. *)
Lemma C1_absolute_position_witness :
  AbsoluteX (objs (world_of palace_scene)) 2 80.
Proof.
  pose proof (C1_absolute_position (objs (world_of palace_scene)) 2
    (MkShape (CustomText (units "ab") "20px Arial" "black") 20 0 0 0 [] (Some 1%nat))
    ltac:(vm_compute; reflexivity)) as (Hp & _ & _).
  apply (Hp eq_refl 1%nat eq_refl 80).
  exists 60. split; [|reflexivity]. exists 2%nat. vm_compute. reflexivity.
Defined.

(** The first-added rectangle and the second one are passed over. *)
Lemma C2_dispatch_reverse_order_witness :
  handleEvent 4 0 (MouseClickEvent 50 25) (world_of three_siblings)
  = handleEvent 3 3 (MouseClickEvent 50 25) (world_of three_siblings).
Proof.
  apply (proj1 (proj2 C2_dispatch_reverse_order) 3%nat 0%nat
    (MkShape (Scene 0) 0 0 800 600 [1; 2; 3]%nat None)
    (MouseClickEvent 50 25) (world_of three_siblings) 1%nat 2%nat 3%nat).
  - vm_compute. reflexivity.
  - reflexivity.
  - vm_compute. reflexivity.
  - vm_compute. reflexivity.
Defined.

Example three_siblings_click :
  console <$> handleEvent 4 0 (MouseClickEvent 50 25) (world_of three_siblings)
  = Some [MkLogEntry 3 (ClickedRectangle 20 10)].
Proof. vm_compute. reflexivity. Qed.

(** The corner (100, 50) of the rectangle (0,0)-(100,50) is inside, the
    point one unit to its right is not. *)
Lemma C3_containsPoint_inclusive_witness :
  containsPoint64 2 (objs (world_of one_rectangle)) 1 (Finite 100) (Finite 50)
    = Some true ∧
  containsPoint64 2 (objs (world_of one_rectangle)) 1 (Finite 101) (Finite 50)
    = Some false.
Proof.
  pose proof (C3_containsPoint_inclusive 2 (objs (world_of one_rectangle)) 1
    (MkShape (Rectangle "black") 0 0 100 50 [] (Some 0%nat)) 0 0
    ltac:(vm_compute; reflexivity) eq_refl
    ltac:(vm_compute; reflexivity) ltac:(vm_compute; reflexivity)
    ltac:(simpl; lia) ltac:(simpl; lia))
    as (_ & _ & Hedge & _ & _ & Hout & _).
  split.
  - apply (Hedge ltac:(simpl; lia) 50). simpl. lia.
  - apply (Hout ltac:(simpl; lia) 50).
Defined.

Example wide_rectangle_inside :
  containsPoint64 1 (objs wide_rectangle.2) wide_rectangle.1
    (Finite (2 ^ 53 - 2)) (Finite 5) = Some true ∧
  containsPoint64 1 (objs wide_rectangle.2) wide_rectangle.1
    (Finite (2 ^ 53 + 2)) (Finite 5) = Some false.
Proof. vm_compute. done. Qed.

(** A radius-40 circle at (0,0): (81, 40) is 41 away from the center. *)
Lemma C4_circle_containsPoint_witness :
  ∃ b, containsPoint64 2 (objs (world_of circle_scene)) 1 (Finite 81) (Finite 40)
         = Some b ∧
    (b = true ↔ (distance 81 40 (0 + 40) (0 + 40) <= IZR 40)%R) ∧
    (distance 81 40 (0 + 40) (0 + 40) = IZR 40 → b = true) ∧
    ((distance 81 40 (0 + 40) (0 + 40) > IZR 40)%R → b = false).
Proof.
  apply (C4_circle_containsPoint 2 (objs (world_of circle_scene)) 1
    (MkShape (Circle 40 "red") 0 0 80 80 [] (Some 0%nat)) 40 "red" 0 0).
  - vm_compute. reflexivity.
  - reflexivity.
  - vm_compute. reflexivity.
  - vm_compute. reflexivity.
  - simpl. lia.
  - simpl. lia.
  - simpl. lia.
  - simpl. lia.
  - simpl. lia.
Defined.

Example circle_contains_center :
  containsPoint64 2 (objs (world_of circle_scene)) 1 (Finite 40) (Finite 40)
  = Some true.
Proof. vm_compute. reflexivity. Qed.

Example circle_contains_rim :
  containsPoint64 2 (objs (world_of circle_scene)) 1 (Finite 80) (Finite 40)
  = Some true.
Proof. vm_compute. reflexivity. Qed.

Example circle_excludes_81_40 :
  containsPoint64 2 (objs (world_of circle_scene)) 1 (Finite 81) (Finite 40)
  = Some false.
Proof. vm_compute. reflexivity. Qed.

(** The rounding of [round53], [dsub] and [sqrt_round] agrees with the
    Standard Library's specification of binary64 on the values of the
    two counterexamples and around them. *)
Example round53_ieee :
  Forall (λ z, double_of_ieee (ieee_of_Z z) = of_exact z)
    [0; 1; -1; 2 ^ 53 - 1; 2 ^ 53; 2 ^ 53 + 1; 2 ^ 53 + 2; 2 ^ 53 + 3;
     - (2 ^ 53 + 1); 2 ^ 54 + 2; 2 ^ 54 + 6; 2 ^ 60 + 129; 3 ^ 40; - 3 ^ 50;
     7 ^ 200; 10 ^ 30 + 7; 2 ^ 1023; 2 ^ 1024 - 2 ^ 970;
     2 ^ 1024 - 2 ^ 970 - 1; - (2 ^ 1024 - 2 ^ 970); 2 ^ 1024].
Proof. repeat constructor. Qed.

Example round53_rounds :
  of_exact (2 ^ 53 + 1) = Finite (2 ^ 53) ∧
  of_exact (2 ^ 53 + 3) = Finite (2 ^ 53 + 4) ∧
  of_exact (2 ^ 1024 - 2 ^ 970) = PlusInfinity.
Proof. vm_compute. done. Qed.

Example dsub_ieee :
  double_of_ieee (SFsub 53 1024 (ieee_of_Z (2 ^ 53)) (ieee_of_Z (-1)))
  = dsub (Finite (2 ^ 53)) (Finite (-1)) ∧
  SFleb (SFsub 53 1024 (ieee_of_Z (2 ^ 53)) (ieee_of_Z (-1))) (ieee_of_Z (2 ^ 53))
  = dleb (dsub (Finite (2 ^ 53)) (Finite (-1))) (num (2 ^ 53)).
Proof. vm_compute. done. Qed.

Example sqrt_round_ieee_samples :
  forallb sqrt_round_ieee
    [1; 2; 3; 4; 5; 1600; 1601; 1681; 2 ^ 52; 2 ^ 52 + 1; 2 ^ 53 - 1;
     2 ^ 106; 2 ^ 107 + 2 ^ 54; 2 ^ 110 + 2 ^ 58; 3 * 2 ^ 200; 10 ^ 30 + 1;
     3 ^ 100 + 3 ^ 60] = true.
Proof. vm_compute. reflexivity. Qed.

Example sqrt_ieee :
  Forall (λ '(d2, r),
            SFleb (SFsqrt 53 1024 (ieee_of_Z d2)) (ieee_of_Z r)
            = Math_sqrt_leb (of_exact d2) (num r))
    [(2 ^ 52 + 1, 2 ^ 26); (2 ^ 52, 2 ^ 26); (2 ^ 52 + 2 ^ 27, 2 ^ 26);
     (1600, 40); (1601, 40); (1681, 40); (1599, 40); (2, 1); (2, 2); (0, 0);
     (0, -1); (5, -3); (10 ^ 30 + 1, 10 ^ 15); (10 ^ 30 - 1, 10 ^ 15);
     (3 ^ 100, 3 ^ 50); (3 ^ 100 + 3 ^ 60, 3 ^ 50); (2 ^ 200 + 1, 2 ^ 100)].
Proof. repeat constructor. Qed.

Example big_circle_ieee :
  let sq x := SFmul 53 1024 x x in
  let dx := SFsub 53 1024 (ieee_of_Z (2 ^ 27)) (ieee_of_Z (2 ^ 26)) in
  let dy := SFsub 53 1024 (ieee_of_Z (2 ^ 26 + 1)) (ieee_of_Z (2 ^ 26)) in
  SFleb (SFsqrt 53 1024 (SFadd 53 1024 (sq dx) (sq dy))) (ieee_of_Z (2 ^ 26))
  = true.
Proof. vm_compute. reflexivity. Qed.

(** The text "ab" of [palace_scene], at (80, 60): two lines, the second
    at (80, 100), where the offset ends; then the width of "a". *)
Lemma C5_text_draw_witness :
  (∃ w1 s1,
    draw ten_per_char 4 2 0 (world_of palace_scene) =
      forEach (λ child, draw ten_per_char 3 child 0) [] w1 ∧
    objs w1 = <[2%nat := s1]> (objs (world_of palace_scene)) ∧
    skeleton s1 = skeleton (MkShape (CustomText (units "ab") "20px Arial" "black")
                              20 0 0 0 [] (Some 1%nat)) ∧
    width s1 = ten_per_char "20px Arial" (item0 (split (units "ab"))) ∧
    console w1 = console (world_of palace_scene) ∧
    ctx_font (get_ctx 0 w1) = "20px Arial" ∧ ctx_fillStyle (get_ctx 0 w1) = "black" ∧
    calls (get_ctx 0 w1) = calls (get_ctx 0 (world_of palace_scene))
                           ++ text_lines 80 60 (split (units "ab")) ∧
    (60 = 0 → height s1 = 20 * Z.of_nat (length (units "ab")) + 20)) ∧
  text_lines 80 60 (split (units "ab")) !! 1%nat
    = Some (fillText [98%N] 80 (60 + 20 * (Z.of_nat 1 + 1))) ∧
  (∀ w0, (paintChars 0 80 (split (units "ab")) 60 w0).1
         = 60 + 20 * Z.of_nat (length (units "ab"))).
Proof.
  pose proof (C5_text_draw ten_per_char 3 2 0 (world_of palace_scene)
    (MkShape (CustomText (units "ab") "20px Arial" "black") 20 0 0 0 [] (Some 1%nat))
    (units "ab") "20px Arial" "black" 80 60
    ltac:(vm_compute; reflexivity) eq_refl
    ltac:(vm_compute; reflexivity) ltac:(vm_compute; reflexivity)) as H.
  cbv zeta in H. destruct H as (H1 & (_ & H2) & H3 & _).
  split; [exact H1|]. split.
  - apply (H2 ltac:(simpl; lia) 1%nat 98%N). reflexivity.
  - apply H3. simpl. lia.
Defined.

(** The same for a text at the origin: "a" alone gets the height 40. *)
Example lone_text_height :
  (λ s, height s) <$>
    (w' ← draw ten_per_char 2 lone_text.1 0 lone_text.2; objs w' !! lone_text.1)
  = Some (20 * 1 + 20).
Proof. vm_compute. reflexivity. Qed.

(** A text of three code units outside ASCII (U+6765, U+56E0, U+5BAB)
    is painted on three lines. *)
Example three_code_units :
  text_lines 0 0 (split [26469; 22240; 23467]%N)
  = [fillText [26469%N] 0 20; fillText [22240%N] 0 40; fillText [23467%N] 0 60].
Proof. reflexivity. Qed.

(** Removing the only child of a scene, twice. *)
Lemma C6_removeChild_witness :
  ∃ w' s' sc',
    removeChild 0 1 (world_of one_rectangle) = Some w' ∧
    objs w' !! 0%nat = Some s' ∧ children s' = [] ++ [] ∧
    objs w' !! 1%nat = Some sc' ∧ parent sc' = None ∧
    (∀ j, j ≠ 0%nat → j ≠ 1%nat → objs w' !! j = objs (world_of one_rectangle) !! j) ∧
    ctxs w' = ctxs (world_of one_rectangle) ∧
    console w' = console (world_of one_rectangle) ∧
    (1%nat ∉ ([] : list nat) → removeChild 0 1 w' = Some w').
Proof.
  apply (proj2 (C6_removeChild 0 1 (world_of one_rectangle)
    (MkShape (Scene 0) 0 0 800 600 [1%nat] None)
    (MkShape (Rectangle "black") 0 0 100 50 [] (Some 0%nat))
    ltac:(vm_compute; reflexivity) ltac:(vm_compute; reflexivity)) [] []).
  - reflexivity.
  - apply not_elem_of_nil.
Defined.

(** A click at (150, 150) misses the rectangle and reaches the scene. *)
Lemma C7_fall_through_witness :
  handleEvent 3 0 (MouseClickEvent 150 150) (world_of one_rectangle)
  = onClick 2 0 (MouseClickEvent 150 150) (world_of one_rectangle).
Proof.
  refine (proj1 (C7_fall_through 2 0
    (MkShape (Scene 0) 0 0 800 600 [1%nat] None)
    (MouseClickEvent 150 150) (world_of one_rectangle)
    ltac:(vm_compute; reflexivity) _) eq_refl).
  intros d Hd. apply list_elem_of_singleton in Hd. subst d.
  vm_compute. reflexivity.
Defined.

Example one_rectangle_click_outside :
  console <$> handleEvent 3 0 (MouseClickEvent 150 150) (world_of one_rectangle)
  = Some [MkLogEntry 0 (ClickedShape 0 0)].
Proof. vm_compute. reflexivity. Qed.

Example one_rectangle_click_inside :
  console <$> handleEvent 4 0 (MouseClickEvent 50 25) (world_of one_rectangle)
  = Some [MkLogEntry 1 (ClickedRectangle 0 0)].
Proof. vm_compute. reflexivity. Qed.

Example one_rectangle_other_kind :
  handleEvent 3 0 (MkHandleEvent "mousemove" 150 150) (world_of one_rectangle)
  = Some (world_of one_rectangle).
Proof. vm_compute. reflexivity. Qed.

(** A second [scene.draw()] of [palace_scene] changes no record. *)
Lemma C8_draw_stable_witness :
  ∃ w2, draw ten_per_char 8 0 0 palace_drawn = Some w2 ∧ objs w2 = objs palace_drawn.
Proof.
  apply (proj1 (C8_draw_stable ten_per_char) 8%nat 0%nat 0%nat 0%nat
    (world_of palace_scene) palace_drawn).
  vm_compute. reflexivity.
Defined.

(** The text that stands under the first palace is added to the second. *)
Lemma C9_addChild_witness :
  ∃ w' s2' sn',
    addChild 1 2 (world_of text_in_first) = Some w' ∧
    objs w' !! 1%nat = Some s2' ∧ children s2' = [] ++ [2%nat] ∧
    objs w' !! 2%nat = Some sn' ∧ parent sn' = Some 1%nat.
Proof.
  destruct (C9_addChild 1 2 (world_of text_in_first)
    (MkShape (PalaceContainer "black") 160 0 160 200 [] None)
    (MkShape (CustomText (units "ab") "20px Arial" "black") 20 0 0 0 [] (Some 0%nat))
    ltac:(vm_compute; reflexivity) ltac:(vm_compute; reflexivity))
    as (w' & s2' & sn' & H1 & H2 & H3 & H4 & H5 & _).
  exists w', s2', sn'. repeat split; assumption.
Defined.

Example text_moved_in_both :
  (λ s, children s) <$> objs (world_of text_moved) !! 0%nat = Some [2%nat] ∧
  (λ s, children s) <$> objs (world_of text_moved) !! 1%nat = Some [2%nat] ∧
  (λ s, parent s) <$> objs (world_of text_moved) !! 2%nat = Some (Some 1%nat) ∧
  getAbsoluteX 2 (objs (world_of text_moved)) 2 = Some 180.
Proof. vm_compute. repeat split. Qed.

(** The parent chain text, palace, scene of [palace_scene] is finite. *)
Lemma C10_termination_witness :
  ∃ F ax ay, ∀ f, (F ≤ f)%nat →
    getAbsoluteX f (objs (world_of palace_scene)) 2 = Some ax ∧
    getAbsoluteY f (objs (world_of palace_scene)) 2 = Some ay.
Proof.
  apply (proj1 C10_termination).
  eapply chain_link; [vm_compute; reflexivity | reflexivity |].
  eapply chain_link; [vm_compute; reflexivity | reflexivity |].
  eapply chain_root; [vm_compute; reflexivity | reflexivity].
Defined.

(** * Further properties of the scene graph *)

(** ** When an absolute position exists, and what it is *)

Lemma getAbsoluteX_Resolves fuel o this v :
  getAbsoluteX fuel o this = Some v → Resolves o this.
Proof.
  revert this v. induction fuel as [|f IH]; intros this v H; [done|].
  destruct (o !! this) as [s|] eqn:Hs; [|by simpl in H; rewrite Hs in H].
  rewrite (getAbsoluteX_unfold _ _ _ _ Hs) in H.
  destruct (is_Scene s) eqn:Hsc; [by eapply resolves_scene|].
  destruct (parent s) as [p|] eqn:Hp; [|by eapply resolves_root].
  destruct (getAbsoluteX f o p) as [vp|] eqn:E; [|done].
  eapply resolves_link; eauto.
Qed.

Lemma getAbsoluteY_Resolves fuel o this v :
  getAbsoluteY fuel o this = Some v → Resolves o this.
Proof.
  revert this v. induction fuel as [|f IH]; intros this v H; [done|].
  destruct (o !! this) as [s|] eqn:Hs; [|by simpl in H; rewrite Hs in H].
  rewrite (getAbsoluteY_unfold _ _ _ _ Hs) in H.
  destruct (is_Scene s) eqn:Hsc; [by eapply resolves_scene|].
  destruct (parent s) as [p|] eqn:Hp; [|by eapply resolves_root].
  destruct (getAbsoluteY f o p) as [vp|] eqn:E; [|done].
  eapply resolves_link; eauto.
Qed.

Lemma Resolves_absolute o this :
  Resolves o this →
  ∃ F ax ay, ∀ f, (F ≤ f)%nat →
    getAbsoluteX f o this = Some ax ∧ getAbsoluteY f o this = Some ay.
Proof.
  induction 1 as [this s Hs Hsc | this s Hs Hsc Hp
                 | this s p Hs Hsc Hp _ (F & ax & ay & IH)].
  - exists 1%nat, 0, 0. intros [|f] Hf; [lia|].
    by rewrite (getAbsoluteX_unfold _ _ _ _ Hs), (getAbsoluteY_unfold _ _ _ _ Hs), Hsc.
  - exists 1%nat, (x s), (y s). intros [|f] Hf; [lia|].
    by rewrite (getAbsoluteX_unfold _ _ _ _ Hs), (getAbsoluteY_unfold _ _ _ _ Hs), Hsc, Hp.
  - exists (S F), (ax + x s), (ay + y s). intros [|f] Hf; [lia|].
    destruct (IH f) as [Hx Hy]; [lia|].
    by rewrite (getAbsoluteX_unfold _ _ _ _ Hs), (getAbsoluteY_unfold _ _ _ _ Hs),
               Hsc, Hp, Hx, Hy.
Qed.

(** X1.  [getAbsoluteX] returns exactly when the parent chain of the node
    reaches a node without parent or a [Scene]; [getAbsoluteY] returns on
    exactly the same nodes. *)
Theorem X1_absolute_position_exists (o : gmap nat Shape) (this : nat) :
  ((∃ v, AbsoluteX o this v) ↔ Resolves o this) ∧
  ((∃ v, AbsoluteY o this v) ↔ Resolves o this).
Proof.
  split; split.
  - intros (v & f & H). by eapply getAbsoluteX_Resolves.
  - intros H. destruct (Resolves_absolute _ _ H) as (F & ax & ay & HF).
    exists ax, F. by apply HF.
  - intros (v & f & H). by eapply getAbsoluteY_Resolves.
  - intros H. destruct (Resolves_absolute _ _ H) as (F & ax & ay & HF).
    exists ay, F. by apply HF.
Qed.

(** ** Who receives a click *)

Lemma scan_full_result test deliver own kids r :
  scan test deliver own kids (length kids) = Some r →
  (∃ c, c ∈ kids ∧ test c = Some true ∧ deliver c = Some r) ∨
  (own = Some r ∧ ∀ d, d ∈ kids → test d = Some false).
Proof.
  induction kids as [|a kids IH] using rev_ind; intros H.
  - right. split; [done|]. intros d Hd. by apply elem_of_nil in Hd.
  - rewrite scan_snoc in H.
    destruct (test a) as [[|]|] eqn:Ha; simpl in H; [| |done].
    + left. exists a. split; [|done]. apply elem_of_app. right.
      by apply list_elem_of_singleton.
    + destruct (IH H) as [(c & Hc & Ht & Hd) | [Ho Hall]].
      * left. exists c. split; [|done]. apply elem_of_app. by left.
      * right. split; [done|]. intros d Hd.
        apply elem_of_app in Hd as [Hd|Hd]; [by apply Hall|].
        apply list_elem_of_singleton in Hd. by subst d.
Qed.

(** X4.  The node whose handler runs on a click is the node the event was
    dispatched at or a descendant that contains the point, and in either
    case none of the receiver's own children contains the point. *)
Theorem X4_click_receiver (fuel : nat) (this : nat) (event : HandleEvent)
    (w w' : World) :
  type event = "click" →
  handleEvent fuel this event w = Some w' →
  ∃ r m sr,
    w' = log (MkLogEntry r m) w ∧
    InSubtree (objs w) this r ∧ objs w !! r = Some sr ∧
    (r = this ∨
     ∃ f, containsPoint f (objs w) r (event_x event) (event_y event) = Some true) ∧
    (∀ c, c ∈ children sr →
       ∃ f, containsPoint f (objs w) c (event_x event) (event_y event) = Some false).
Proof.
  intros Hclick. revert this w'.
  induction fuel as [|f IH]; intros this w' H; [done|].
  destruct (objs w !! this) as [s|] eqn:Hs; [|by simpl in H; rewrite Hs in H].
  rewrite (handleEvent_unfold _ _ _ _ _ Hs) in H.
  apply scan_full_result in H as [(c & Hin & Ht & Hd) | [Hown Hall]].
  - destruct (IH _ _ Hd) as (r & m & sr & -> & Hsub & Hr & Hor & Hkids).
    exists r, m, sr. split; [done|]. split.
    { eapply InSubtree_trans; [|exact Hsub]. by eapply InSubtree_child. }
    split; [done|]. split; [|done].
    right. destruct Hor as [->|Hc]; [by exists f | exact Hc].
  - rewrite decide_True in Hown by done.
    apply onClick_log in Hown as [m ->].
    exists this, m, s. split; [done|]. split; [constructor|].
    split; [done|]. split; [by left|].
    intros c Hc. exists f. by apply Hall.
Qed.

(** X5.  Dispatching an event of any kind never changes a shape or a
    drawing context; the console gains at most one line. *)
Theorem X5_dispatch_read_only (fuel : nat) (this : nat) (event : HandleEvent)
    (w w' : World) :
  handleEvent fuel this event w = Some w' →
  objs w' = objs w ∧ ctxs w' = ctxs w ∧
  (console w' = console w ∨ ∃ e, console w' = console w ++ [e]).
Proof.
  intros H. destruct (decide (type event = "click")) as [Hc|Hc].
  - destruct (handleEvent_click_log _ _ _ _ _ Hc H) as (r & m & -> & _).
    simpl. repeat split; try done. right. by eexists.
  - rewrite (handleEvent_other_kind _ _ _ _ _ Hc H). repeat split; try done. by left.
Qed.

(** ** Editing the tree: what [addChild] and [removeChild] keep *)

Lemma with_objs_id w : with_objs (objs w) w = w.
Proof. by destruct w. Qed.

Lemma assign_inv id f w w' :
  assign id f w = Some w' →
  ∃ s, objs w !! id = Some s ∧ w' = with_objs (<[id := f s]> (objs w)) w.
Proof.
  unfold assign. intros H.
  destruct (objs w !! id) as [s|]; simpl in H; [|done].
  exists s. split; [done|]. congruence.
Qed.

(** The store [addChild] leaves. *)
Lemma addChild_inv this child w w' :
  addChild this child w = Some w' →
  ∃ st sc, objs w !! this = Some st ∧
    (<[this := set_children (children st ++ [child]) st]> (objs w)) !! child = Some sc ∧
    ctxs w' = ctxs w ∧ console w' = console w ∧
    objs w' = <[child := set_parent (Some this) sc]>
                (<[this := set_children (children st ++ [child]) st]> (objs w)).
Proof.
  unfold addChild. intros H.
  destruct (assign this _ w) as [w1|] eqn:E1; simpl in H; [|done].
  apply assign_inv in E1 as (st & Hst & ->).
  apply assign_inv in H as (sc & Hsc & ->).
  exists st, sc. simpl in *. done.
Qed.

(** The store [removeChild] leaves when it finds the child. *)
Lemma removeChild_inv this child w w' :
  removeChild this child w = Some w' →
  ∃ st, objs w !! this = Some st ∧
    (((child ∉ children st) ∧ w' = w) ∨
     ∃ l1 l2 sc, children st = l1 ++ child :: l2 ∧ (child ∉ l1) ∧
       (<[this := set_children (l1 ++ l2) st]> (objs w)) !! child = Some sc ∧
       ctxs w' = ctxs w ∧ console w' = console w ∧
       objs w' = <[child := set_parent None sc]>
                   (<[this := set_children (l1 ++ l2) st]> (objs w))).
Proof.
  unfold removeChild. intros H.
  destruct (objs w !! this) as [st|] eqn:Hst; simpl in H; [|done].
  exists st. split; [done|].
  destruct (decide (child ∈ children st)) as [Hin|Hout].
  - right. destruct (first_occurrence _ _ Hin) as (l1 & l2 & Hk & Hl1).
    rewrite Hk, indexOf_first in H by done.
    replace (Z.of_nat (length l1) =? -1) with false in H
      by (symmetry; apply Z.eqb_neq; lia).
    simpl in H. rewrite (assign_Some _ _ _ _ Hst) in H. simpl in H.
    rewrite Hk, splice1_middle in H.
    apply assign_inv in H as (sc & Hsc & ->).
    exists l1, l2, sc. simpl in *. done.
  - left. split; [done|]. rewrite indexOf_absent in H by done.
    simpl in H. congruence.
Qed.

(** X6.  If every node that names a parent stands in that parent's
    array, this is still so after [addChild] and after [removeChild]
    (and after a constructor, which creates a node without parent); it
    holds in the empty world, hence in every scene built with these
    operations. *)
Theorem X6_backlinks_preserved :
  backlinked (objs empty_world) ∧
  (∀ s w, parent s = None → backlinked (objs w) → backlinked (objs (alloc s w).2)) ∧
  (∀ this child w w',
     addChild this child w = Some w' → backlinked (objs w) → backlinked (objs w')) ∧
  (∀ this child w w',
     removeChild this child w = Some w' → backlinked (objs w) → backlinked (objs w')).
Proof.
  split; [|split; [|split]].
  - intros n s p Hn. simpl in Hn. by rewrite lookup_empty in Hn.
  - intros s w Hp Hb n sn p Hn Hpar. unfold alloc in *. simpl in *.
    set (id := fresh (dom (objs w))) in *.
    assert (objs w !! id = None) as Hfresh
      by (apply not_elem_of_dom; apply is_fresh).
    destruct (decide (id = n)) as [->|Hne].
    + rewrite lookup_insert_eq in Hn. congruence.
    + rewrite lookup_insert_ne in Hn by done.
      destruct (Hb n sn p Hn Hpar) as (sp & Hsp & Hin).
      exists sp. split; [|done]. rewrite lookup_insert_ne; [done|]. congruence.
  - intros this child w w' H Hb.
    apply addChild_inv in H as (st & sc & Hst & Hsc & _ & _ & Ho).
    assert (∀ p sp, objs w !! p = Some sp →
              ∃ sp', objs w' !! p = Some sp' ∧ ∀ n, n ∈ children sp → n ∈ children sp')
      as Hgrow.
    { intros p sp Hp. rewrite Ho.
      destruct (decide (child = p)) as [<-|Hcp].
      - rewrite lookup_insert_eq. eexists. split; [reflexivity|].
        destruct (decide (this = child)) as [->|Htc].
        + rewrite lookup_insert_eq in Hsc. inversion Hsc; subst sc. simpl.
          assert (sp = st) as -> by congruence.
          intros n Hn. apply elem_of_app. by left.
        + rewrite lookup_insert_ne in Hsc by done.
          assert (sp = sc) as -> by congruence. done.
      - rewrite lookup_insert_ne by done.
        destruct (decide (this = p)) as [<-|Htp].
        + rewrite lookup_insert_eq. eexists. split; [reflexivity|]. simpl.
          assert (sp = st) as -> by congruence.
          intros n Hn. apply elem_of_app. by left.
        + rewrite lookup_insert_ne by done. by exists sp. }
    intros n sn p Hn Hpar. rewrite Ho in Hn.
    destruct (decide (child = n)) as [<-|Hcn].
    + rewrite lookup_insert_eq in Hn. inversion Hn; subst sn. simpl in Hpar.
      inversion Hpar; subst p. rewrite Ho.
      destruct (decide (child = this)) as [->|Hct].
      * rewrite lookup_insert_eq. eexists. split; [reflexivity|]. simpl.
        rewrite lookup_insert_eq in Hsc. inversion Hsc; subst sc. simpl.
        apply elem_of_app. right. by apply list_elem_of_singleton.
      * rewrite lookup_insert_ne, lookup_insert_eq by done.
        eexists. split; [reflexivity|]. simpl.
        apply elem_of_app. right. by apply list_elem_of_singleton.
    + rewrite lookup_insert_ne in Hn by done.
      assert (∃ sn0, objs w !! n = Some sn0 ∧ parent sn0 = Some p) as (sn0 & Hn0 & Hp0).
      { destruct (decide (this = n)) as [<-|Htn].
        - rewrite lookup_insert_eq in Hn. inversion Hn; subst sn. by exists st.
        - rewrite lookup_insert_ne in Hn by done. by exists sn. }
      destruct (Hb n sn0 p Hn0 Hp0) as (sp & Hsp & Hin).
      destruct (Hgrow p sp Hsp) as (sp' & Hsp' & Hsub).
      exists sp'. split; [done|]. by apply Hsub.
  - intros this child w w' H Hb.
    apply removeChild_inv in H as (st & Hst & [[_ ->] | H]); [done|].
    destruct H as (l1 & l2 & sc & Hk & Hl1 & Hsc & _ & _ & Ho).
    assert (∀ p sp, objs w !! p = Some sp →
              ∃ sp', objs w' !! p = Some sp' ∧
                ∀ n, n ≠ child → n ∈ children sp → n ∈ children sp') as Hkeep.
    { intros p sp Hp. rewrite Ho.
      assert (∀ n, n ≠ child → n ∈ children st → n ∈ l1 ++ l2) as Hrest.
      { intros n Hn. rewrite Hk, !elem_of_app, elem_of_cons.
        intros [Hx|[Hx|Hx]]; [by left | congruence | by right]. }
      destruct (decide (child = p)) as [<-|Hcp].
      - rewrite lookup_insert_eq. eexists. split; [reflexivity|].
        destruct (decide (this = child)) as [->|Htc].
        + rewrite lookup_insert_eq in Hsc. inversion Hsc; subst sc. simpl.
          assert (sp = st) as -> by congruence. exact Hrest.
        + rewrite lookup_insert_ne in Hsc by done.
          assert (sp = sc) as -> by congruence. done.
      - rewrite lookup_insert_ne by done.
        destruct (decide (this = p)) as [<-|Htp].
        + rewrite lookup_insert_eq. eexists. split; [reflexivity|]. simpl.
          assert (sp = st) as -> by congruence. exact Hrest.
        + rewrite lookup_insert_ne by done. by exists sp. }
    intros n sn p Hn Hpar. rewrite Ho in Hn.
    destruct (decide (child = n)) as [<-|Hcn].
    + rewrite lookup_insert_eq in Hn. inversion Hn; subst sn. done.
    + rewrite lookup_insert_ne in Hn by done.
      assert (∃ sn0, objs w !! n = Some sn0 ∧ parent sn0 = Some p) as (sn0 & Hn0 & Hp0).
      { destruct (decide (this = n)) as [<-|Htn].
        - rewrite lookup_insert_eq in Hn. inversion Hn; subst sn. by exists st.
        - rewrite lookup_insert_ne in Hn by done. by exists sn. }
      destruct (Hb n sn0 p Hn0 Hp0) as (sp & Hsp & Hin).
      destruct (Hkeep p sp Hsp) as (sp' & Hsp' & Hsub).
      exists sp'. split; [done|]. apply Hsub; [congruence | done].
Qed.

Lemma addChild_found this child w st sc :
  objs w !! this = Some st →
  (<[this := set_children (children st ++ [child]) st]> (objs w)) !! child = Some sc →
  addChild this child w =
    Some (with_objs (<[child := set_parent (Some this) sc]>
            (<[this := set_children (children st ++ [child]) st]> (objs w))) w).
Proof.
  intros Hst Hsc. unfold addChild.
  rewrite (assign_Some _ _ _ _ Hst). cbn [mbind option_bind].
  by erewrite assign_Some by exact Hsc.
Qed.

Lemma removeChild_found this child w st sc l1 l2 :
  objs w !! this = Some st → children st = l1 ++ child :: l2 → child ∉ l1 →
  (<[this := set_children (l1 ++ l2) st]> (objs w)) !! child = Some sc →
  removeChild this child w =
    Some (with_objs (<[child := set_parent None sc]>
            (<[this := set_children (l1 ++ l2) st]> (objs w))) w).
Proof.
  intros Hst Hk Hl1 Hsc. unfold removeChild. rewrite Hst. simpl.
  rewrite Hk, indexOf_first by done.
  replace (Z.of_nat (length l1) =? -1) with false by (symmetry; apply Z.eqb_neq; lia).
  simpl. rewrite (assign_Some _ _ _ _ Hst). simpl.
  rewrite Hk, splice1_middle.
  by erewrite assign_Some by exact Hsc.
Qed.

Lemma world_eq w w' :
  objs w = objs w' → ctxs w = ctxs w' → console w = console w' → w = w'.
Proof. destruct w, w'. simpl. by intros -> -> ->. Qed.

(** X7.  [addChild(child)] followed by [removeChild(child)] on the same
    container always returns and leaves the child without parent.  When
    the child was not in the array before, the array is as before, and
    if the child had no parent before either, the whole world is as
    before.  When the child was in the array already, it is the older
    occurrence that is removed: the child moves to the end of the
    array. *)
Theorem X7_add_then_remove (this child : nat) (w : World) (st sc : Shape) :
  objs w !! this = Some st → objs w !! child = Some sc →
  ∃ w1 w2 st2 sc2,
    addChild this child w = Some w1 ∧ removeChild this child w1 = Some w2 ∧
    objs w2 !! this = Some st2 ∧ objs w2 !! child = Some sc2 ∧
    parent sc2 = None ∧
    (child ∉ children st →
       children st2 = children st ∧ (parent sc = None → w2 = w)) ∧
    (∀ l1 l2, children st = l1 ++ child :: l2 → child ∉ l1 →
       children st2 = l1 ++ l2 ++ [child]).
Proof.
  intros Hst Hsc.
  destruct (first_occurrence (children st ++ [child]) child) as (k1 & k2 & Hk & Hk1).
  { apply elem_of_app. right. by apply list_elem_of_singleton. }
  assert (child ∉ children st → k1 = children st ∧ k2 = []) as Habsent.
  { intros Hout. revert k1 Hk Hk1. generalize (children st) as l, Hout.
    induction l as [|a l IH]; intros Ha k1 Hk Hk1.
    - destruct k1 as [|b k1]; simpl in Hk.
      + inversion Hk. done.
      + inversion Hk as [[E1 E2]]. subst b. exfalso. apply Hk1. by left.
    - destruct k1 as [|b k1]; simpl in Hk.
      + inversion Hk. subst a. exfalso. apply Ha. by left.
      + inversion Hk as [[E1 E2]]. subst b.
        destruct (IH (λ H, Ha (list_elem_of_further _ _ _ H)) k1 E2) as [-> ->].
        { intros H. apply Hk1. by right. }
        done. }
  assert (∀ l1 l2, children st = l1 ++ child :: l2 → child ∉ l1 →
            k1 = l1 ∧ k2 = l2 ++ [child]) as Hpresent.
  { intros l1 l2 Hc Hl1. rewrite Hc in Hk. clear Hc Habsent.
    revert k1 Hk Hk1. induction l1 as [|a l1 IH]; intros k1 Hk Hk1.
    - destruct k1 as [|b k1]; simpl in Hk.
      + inversion Hk. done.
      + inversion Hk as [[E1 E2]]. subst b. exfalso. apply Hk1. by left.
    - destruct k1 as [|b k1]; simpl in Hk.
      + inversion Hk. subst a. exfalso. apply Hl1. by left.
      + inversion Hk as [[E1 E2]]. subst b.
        destruct (IH (λ H, Hl1 (list_elem_of_further _ _ _ H)) k1 E2) as [-> ->].
        { intros H. apply Hk1. by right. }
        done. }
  destruct (decide (this = child)) as [->|Hne].
  - assert (sc = st) as -> by congruence.
    eexists _, _, _, _.
    split; [eapply addChild_found; [exact Hst|apply lookup_insert_eq]|].
    split; [eapply removeChild_found;
              [simpl; apply lookup_insert_eq|simpl; exact Hk|exact Hk1
              |apply lookup_insert_eq]|].
    simpl. rewrite lookup_insert_eq. split; [reflexivity|]. split; [reflexivity|].
    split; [done|]. split.
    + intros Hout. destruct (Habsent Hout) as [-> ->]. simpl.
      rewrite app_nil_r. split; [done|]. intros Hp.
      apply world_eq; simpl; try done. apply map_eq. intros j.
      destruct (decide (child = j)) as [<-|Hj].
      * rewrite lookup_insert_eq, Hst. f_equal.
        destruct st; simpl in *; subst; done.
      * by rewrite !lookup_insert_ne.
    + intros l1 l2 Hc Hl1. destruct (Hpresent l1 l2 Hc Hl1) as [-> ->]. done.
  - eexists _, _, _, _.
    split; [eapply addChild_found;
              [exact Hst|rewrite lookup_insert_ne by done; exact Hsc]|].
    split; [eapply removeChild_found;
              [simpl; rewrite lookup_insert_ne, lookup_insert_eq by done; reflexivity
              |simpl; exact Hk|exact Hk1
              |simpl; rewrite lookup_insert_ne, lookup_insert_eq by done; reflexivity]|].
    simpl. rewrite lookup_insert_ne, !lookup_insert_eq by done.
    split; [reflexivity|]. split; [reflexivity|].
    split; [done|]. split.
    + intros Hout. destruct (Habsent Hout) as [-> ->]. simpl.
      rewrite app_nil_r. split; [done|]. intros Hp.
      apply world_eq; simpl; try done. apply map_eq. intros j.
      destruct (decide (child = j)) as [<-|Hj].
      * rewrite lookup_insert_eq, Hsc. f_equal.
        destruct sc; simpl in *; subst; done.
      * rewrite lookup_insert_ne by done.
        destruct (decide (this = j)) as [<-|Hj'].
        -- rewrite lookup_insert_eq, Hst. f_equal.
           destruct st; simpl in *; subst; done.
        -- by rewrite !lookup_insert_ne.
    + intros l1 l2 Hc Hl1. destruct (Hpresent l1 l2 Hc Hl1) as [-> ->]. done.
Qed.

(** X8.  [removeChild] does not ask whether the container is the node's
    current parent.  When a node stands in the arrays of two containers,
    removing it from one of them clears its [parent] whatever that was:
    the node stays in the other array, untouched, but from then on its
    absolute position is its local one (unless it is a [Scene]). *)
Theorem X8_remove_from_one_of_two (c1 c2 n : nat) (w : World) (s1 s2 sn : Shape) :
  objs w !! c1 = Some s1 → objs w !! c2 = Some s2 → objs w !! n = Some sn →
  c1 ≠ c2 → n ≠ c2 → n ∈ children s1 → n ∈ children s2 →
  ∃ w' sn',
    removeChild c1 n w = Some w' ∧
    objs w' !! c2 = Some s2 ∧
    objs w' !! n = Some sn' ∧ parent sn' = None ∧
    (is_Scene sn = false → ∀ f,
       getAbsoluteX (S f) (objs w') n = Some (x sn) ∧
       getAbsoluteY (S f) (objs w') n = Some (y sn)).
Proof.
  intros H1 H2 Hn Hc Hn2 Hin1 Hin2.
  destruct (first_occurrence _ _ Hin1) as (l1 & l2 & Hk & Hl1).
  assert (∃ sc, (<[c1 := set_children (l1 ++ l2) s1]> (objs w)) !! n = Some sc ∧
                is_Scene sc = is_Scene sn ∧ x sc = x sn ∧ y sc = y sn) as
    (sc & Hsc & Esc & Ex & Ey).
  { destruct (decide (c1 = n)) as [->|Hne].
    - rewrite lookup_insert_eq. eexists. split; [reflexivity|].
      assert (sn = s1) as -> by congruence. done.
    - rewrite lookup_insert_ne by done. by exists sn. }
  eexists _, _. split; [by eapply removeChild_found|].
  cbn [objs with_objs].
  rewrite lookup_insert_ne, lookup_insert_ne, lookup_insert_eq by done.
  split; [done|]. split; [reflexivity|]. split; [done|].
  intros Hscene f.
  erewrite getAbsoluteX_unfold by apply lookup_insert_eq.
  erewrite getAbsoluteY_unfold by apply lookup_insert_eq.
  unfold is_Scene in *. simpl. rewrite Esc, Hscene, Ex, Ey. done.
Qed.

(** ** Painting: what a [draw] leaves alone, the order of the calls, and
    when it returns *)

Lemma calls_upd_call c k w :
  calls (get_ctx c (upd_ctx c (call k) w)) = calls (get_ctx c w) ++ [k].
Proof. by rewrite get_ctx_upd_eq. Qed.

Lemma same_skeleton_sym o o' : same_skeleton o o' → same_skeleton o' o.
Proof. intros H j. by rewrite H. Qed.

Lemma Resolves_skeleton o o' this :
  same_skeleton o o' → Resolves o this → Resolves o' this.
Proof.
  intros Hsk Hr. destruct (Resolves_absolute _ _ Hr) as (F & ax & ay & HF).
  destruct (HF F) as [Hx _]; [lia|].
  rewrite (getAbsoluteX_skeleton F o o' this Hsk) in Hx.
  by eapply getAbsoluteX_Resolves.
Qed.

Lemma skeleton_is_Scene s s' : skeleton s' = skeleton s → is_Scene s' = is_Scene s.
Proof. unfold skeleton, is_Scene. intros H. injection H as E1 E2 E3 E4 E5. by rewrite E1. Qed.

Lemma skeleton_children s s' : skeleton s' = skeleton s → children s' = children s.
Proof. unfold skeleton. intros H. injection H as E1 E2 E3 E4 E5. done. Qed.

Lemma Drawable_skeleton o o' this :
  same_skeleton o o' → Drawable o this → Drawable o' this.
Proof.
  intros Hsk. induction 1 as [this s Hs Hres Hkids IH].
  destruct (same_skeleton_lookup _ _ _ _ Hsk Hs) as (s' & Hs' & E).
  eapply drawable_node; [exact Hs'| |].
  - rewrite (skeleton_is_Scene _ _ E). intros Hsc.
    eapply Resolves_skeleton; [exact Hsk | by apply Hres].
  - rewrite (skeleton_children _ _ E). exact IH.
Qed.

Lemma InSubtree_head o this d :
  InSubtree o this d →
  d = this ∨ ∃ s c, o !! this = Some s ∧ c ∈ children s ∧ InSubtree o c d.
Proof.
  induction 1 as [|d s child Hsub IH Hs Hin]; [by left|]. right.
  destruct IH as [->|(s0 & c & Hs0 & Hc & Hcd)].
  - exists s, child. split; [done|]. split; [done|]. constructor.
  - exists s0, c. split; [done|]. split; [done|]. eapply subtree_child; eauto.
Qed.

Lemma FiniteTree_irreflexive o this s :
  FiniteTree o this → o !! this = Some s → this ∉ children s.
Proof.
  induction 1 as [this s0 Hs0 Hkids IH]. intros Hs Hin.
  assert (s0 = s) as -> by congruence.
  by apply (IH this Hin).
Qed.

(** [Drawable] in terms of the two notions used for [handleEvent]. *)
Lemma Drawable_iff o this :
  Drawable o this ↔
  FiniteTree o this ∧ ∀ d, InSubtree o this d → Resolves o d.
Proof.
  split.
  - induction 1 as [this s Hs Hres Hkids IH]. split.
    + eapply tree_node; [exact Hs|]. intros c Hc. by apply (IH c Hc).
    + intros d Hd. apply InSubtree_head in Hd as [->|(s0 & c & Hs0 & Hc & Hcd)].
      * destruct (is_Scene s) eqn:Hsc; [by eapply resolves_scene | by apply Hres].
      * assert (s0 = s) as -> by congruence. by apply (IH c Hc).
  - intros [Ht Hr]. induction Ht as [this s Hs Hkids IH].
    eapply drawable_node; [exact Hs| |].
    + intros _. apply Hr. constructor.
    + intros c Hc. apply (IH c Hc). intros d Hd. apply Hr.
      eapply InSubtree_trans; [by eapply InSubtree_child | exact Hd].
Qed.

Section PaintingOrder.
Variable measureText : string → list N → Z.

(** One [draw] up to the loop over the children, with what it did to the
    contexts. *)
Lemma draw_self fuel this ctx w w' s :
  objs w !! this = Some s →
  draw measureText (S fuel) this ctx w = Some w' →
  ∃ w1 ax ay,
    (is_Scene s = false →
       getAbsoluteX fuel (objs w) this = Some ax ∧
       getAbsoluteY fuel (objs w) this = Some ay) ∧
    forEach (λ child, draw measureText fuel child (child_ctx s ctx)) (children s) w1
      = Some w' ∧
    console w1 = console w ∧ same_skeleton (objs w) (objs w1) ∧
    calls (get_ctx (child_ctx s ctx) w1)
      = calls (get_ctx (child_ctx s ctx) w) ++ self_calls s ax ay ∧
    ∀ c, c ≠ child_ctx s ctx → get_ctx c w1 = get_ctx c w.
Proof.
  intros Hs H. unfold child_ctx, self_calls, is_Scene.
  destruct (class s) as [sc|r fc|text font fc|c0|sc] eqn:Hc.
  1,2,5: simpl in H; rewrite Hs in H; simpl in H; rewrite Hc in H;
    destruct (getAbsoluteX fuel (objs w) this) as [ax|]; simpl in H; [|done];
    destruct (getAbsoluteY fuel (objs w) this) as [ay|]; simpl in H; [|done];
    eexists _, ax, ay; split; [done|]; split; [exact H|];
    split; [done|]; split; [done|]; split;
    [ rewrite !get_ctx_upd_eq; simpl; by rewrite <- ?app_assoc
    | intros c Hne; by rewrite !get_ctx_upd_ne ].
  - destruct (getAbsoluteX fuel (objs w) this) as [ax|] eqn:Hx;
      [|by simpl in H; rewrite Hs in H; simpl in H; rewrite Hc, Hx in H].
    destruct (getAbsoluteY fuel (objs w) this) as [ay|] eqn:Hy;
      [|by simpl in H; rewrite Hs in H; simpl in H; rewrite Hc, Hx, Hy in H].
    rewrite (draw_CustomText measureText _ _ _ _ _ _ _ _ _ _ Hs Hc Hx Hy) in H.
    pose proof (paintChars_spec ctx ax (split text) ay
      (upd_ctx ctx (set_fillStyle fc) (upd_ctx ctx (set_font font) w)))
      as (_ & _ & H3 & _ & _ & _ & H7 & H8).
    eexists _, ax, ay. split; [done|]. split; [exact H|].
    cbn [objs console with_objs]. rewrite !get_ctx_with_objs.
    split; [exact H3|]. split.
    { eapply same_skeleton_insert; [exact Hs | done]. }
    split.
    + rewrite H7, !get_ctx_upd_eq. done.
    + intros c Hne. rewrite get_ctx_with_objs, H8 by done.
      by rewrite !get_ctx_upd_ne.
  - simpl in H. rewrite Hs in H. simpl in H. rewrite Hc in H.
    eexists _, 0, 0. split; [done|]. split; [exact H|].
    split; [done|]. split; [done|]. split.
    + by rewrite get_ctx_upd_eq.
    + intros c Hne. by rewrite get_ctx_upd_ne.
Qed.

(** Painting only ever appends calls, and never prints. *)
Lemma forEach_appends (g : nat → World → option World) l w w' :
  (∀ a w w', g a w = Some w' →
     console w' = console w ∧
     ∀ c, ∃ new, calls (get_ctx c w') = calls (get_ctx c w) ++ new) →
  forEach g l w = Some w' →
  console w' = console w ∧
  ∀ c, ∃ new, calls (get_ctx c w') = calls (get_ctx c w) ++ new.
Proof.
  intros Hg. revert w. induction l as [|a l IH]; intros w H; simpl in H.
  - inversion H; subst w'. split; [done|]. intros c. exists []. by rewrite app_nil_r.
  - destruct (g a w) as [wm|] eqn:Ha; simpl in H; [|done].
    destruct (Hg a w wm Ha) as [C1 A1]. destruct (IH wm H) as [C2 A2].
    split; [congruence|]. intros c.
    destruct (A1 c) as [n1 E1]. destruct (A2 c) as [n2 E2].
    exists (n1 ++ n2). by rewrite E2, E1, app_assoc.
Qed.

Lemma draw_appends fuel this ctx w w' :
  draw measureText fuel this ctx w = Some w' →
  console w' = console w ∧
  ∀ c, ∃ new, calls (get_ctx c w') = calls (get_ctx c w) ++ new.
Proof.
  revert this ctx w w'. induction fuel as [|f IH]; intros this ctx w w' H; [done|].
  destruct (objs w !! this) as [s|] eqn:Hs; [|by simpl in H; rewrite Hs in H].
  destruct (draw_self _ _ _ _ _ _ Hs H) as (w1 & ax & ay & _ & HF & C1 & _ & Hcalls & Hother).
  destruct (forEach_appends _ _ _ _ (λ a, IH a (child_ctx s ctx)) HF) as [C2 A2].
  split; [congruence|]. intros c. destruct (A2 c) as [n2 E2].
  destruct (decide (c = child_ctx s ctx)) as [->|Hne].
  - exists (self_calls s ax ay ++ n2). by rewrite E2, Hcalls, app_assoc.
  - exists n2. by rewrite E2, Hother.
Qed.

(** A node that is not a text node keeps its record through a [draw]. *)
Lemma draw_keeps_record fuel this ctx w w' j s :
  draw measureText fuel this ctx w = Some w' →
  objs w !! j = Some s →
  (∀ text font fillColor, class s ≠ CustomText text font fillColor) →
  objs w' !! j = Some s.
Proof.
  intros H Hs Hc.
  destruct (repaints_draw measureText fuel this ctx w w' H) as (_ & Hst & _).
  rewrite Hst; [done|].
  intros s0 f0 s0' Hs0 Hm. assert (s0 = s) as -> by congruence.
  unfold measured in Hm. destruct (class s) eqn:E;
    try (by inversion Hm);
    try (destruct (getAbsoluteX f0 (objs w) j); simpl in Hm; [|done];
         destruct (getAbsoluteY f0 (objs w) j); simpl in Hm; [|done];
         by inversion Hm).
  exfalso. by eapply Hc.
Qed.

(** X9.  A [draw] never prints on the console and never changes a class,
    a position, a child array or a parent link; the record of a node
    that is not a text node is left exactly as it was.  The only fields
    a [draw] writes are the [width] and [height] of text nodes. *)
Theorem X9_draw_frame (fuel this ctx : nat) (w w' : World) :
  draw measureText fuel this ctx w = Some w' →
  console w' = console w ∧
  same_skeleton (objs w) (objs w') ∧
  (∀ j s, objs w !! j = Some s →
     (∀ text font fillColor, class s ≠ CustomText text font fillColor) →
     objs w' !! j = Some s).
Proof.
  intros H. split; [by eapply draw_appends|].
  split; [by apply (repaints_draw measureText fuel this ctx w w' H)|].
  intros j s Hs Hc. by eapply draw_keeps_record.
Qed.

(** X10.  Painting is append-only, parent first: when a [draw] returns,
    every context holds the calls it held before followed by new ones,
    and on the context the node paints on (its own for a [Scene], the
    given one otherwise) the first new calls are the node's own
    (outline, disc, text lines or the clearing), before anything its
    children painted. *)
Theorem X10_draw_parent_first (fuel this ctx : nat) (w w' : World) (s : Shape) :
  objs w !! this = Some s →
  draw measureText (S fuel) this ctx w = Some w' →
  ∃ ax ay rest,
    (is_Scene s = false →
       getAbsoluteX fuel (objs w) this = Some ax ∧
       getAbsoluteY fuel (objs w) this = Some ay) ∧
    calls (get_ctx (child_ctx s ctx) w')
      = calls (get_ctx (child_ctx s ctx) w) ++ self_calls s ax ay ++ rest ∧
    (∀ c, ∃ new, calls (get_ctx c w') = calls (get_ctx c w) ++ new).
Proof.
  intros Hs H.
  destruct (draw_self _ _ _ _ _ _ Hs H) as (w1 & ax & ay & Habs & HF & _ & _ & Hcalls & _).
  destruct (forEach_appends _ _ _ _
              (λ a, draw_appends fuel a (child_ctx s ctx)) HF) as [_ A2].
  destruct (A2 (child_ctx s ctx)) as [rest E].
  exists ax, ay, rest. split; [done|]. split.
  - by rewrite E, Hcalls, app_assoc.
  - by eapply draw_appends.
Qed.

End PaintingOrder.

Section PaintingReturns.
Variable measureText : string → list N → Z.

(** Each child of a loop that returned was drawn, in a world with the
    skeleton the loop started from. *)
Lemma forEach_each fuel ctx l w w' :
  forEach (λ child, draw measureText fuel child ctx) l w = Some w' →
  ∀ c, c ∈ l → ∃ wa wb,
    same_skeleton (objs w) (objs wa) ∧ draw measureText fuel c ctx wa = Some wb.
Proof.
  revert w. induction l as [|a l IH]; intros w H c Hc; [by apply elem_of_nil in Hc|].
  simpl in H. destruct (draw measureText fuel a ctx w) as [wm|] eqn:Ha; simpl in H; [|done].
  apply elem_of_cons in Hc as [->|Hc].
  - exists w, wm. split; [apply same_skeleton_refl | done].
  - destruct (IH wm H c Hc) as (wa & wb & Hsk & Hd).
    exists wa, wb. split; [|done].
    eapply same_skeleton_trans; [|exact Hsk].
    by apply (repaints_draw measureText fuel a ctx w wm Ha).
Qed.

Lemma draw_Drawable fuel this ctx w w' :
  draw measureText fuel this ctx w = Some w' → Drawable (objs w) this.
Proof.
  revert this ctx w w'. induction fuel as [|f IH]; intros this ctx w w' H; [done|].
  destruct (objs w !! this) as [s|] eqn:Hs; [|by simpl in H; rewrite Hs in H].
  destruct (draw_self measureText _ _ _ _ _ _ Hs H)
    as (w1 & ax & ay & Habs & HF & _ & Hsk & _).
  eapply drawable_node; [exact Hs| |].
  - intros Hsc. destruct (Habs Hsc) as [Hx _]. by eapply getAbsoluteX_Resolves.
  - intros c Hc. destruct (forEach_each _ _ _ _ _ HF c Hc) as (wa & wb & Hska & Hd).
    eapply Drawable_skeleton; [|exact (IH _ _ _ _ Hd)].
    apply same_skeleton_sym. by eapply same_skeleton_trans.
Qed.

Lemma forEach_is_Some (g : nat → World → option World) o l :
  (∀ c, c ∈ l → ∀ wa, same_skeleton o (objs wa) → is_Some (g c wa)) →
  (∀ c wa wb, g c wa = Some wb → same_skeleton (objs wa) (objs wb)) →
  ∀ wa, same_skeleton o (objs wa) → is_Some (forEach g l wa).
Proof.
  intros Hg Hsk. induction l as [|a l IH]; intros wa Hwa; simpl; [done|].
  destruct (Hg a) with (wa := wa) as [wm Hm]; [by left | done |].
  rewrite Hm. simpl. apply IH.
  - intros c Hc. apply Hg. by right.
  - eapply same_skeleton_trans; [exact Hwa | by eapply Hsk].
Qed.

Lemma Drawable_draw o this :
  Drawable o this →
  ∃ F, ∀ f, (F ≤ f)%nat → ∀ ctx wa,
    same_skeleton o (objs wa) → is_Some (draw measureText f this ctx wa).
Proof.
  induction 1 as [this s Hs Hres Hkids IH].
  destruct (bound_all
    (λ d f, ∀ ctx wa, same_skeleton o (objs wa) →
              is_Some (draw measureText f d ctx wa)) (children s) IH) as [F HF].
  assert (∃ Fa, ∀ f, (Fa ≤ f)%nat → is_Scene s = false →
            is_Some (getAbsoluteX f o this) ∧ is_Some (getAbsoluteY f o this))
    as [Fa HFa].
  { destruct (is_Scene s) eqn:Hsc; [by exists 0%nat|].
    destruct (Resolves_absolute _ _ (Hres eq_refl)) as (Fa & ax & ay & HFa).
    exists Fa. intros f Hf _. destruct (HFa f Hf) as [-> ->]. eauto. }
  exists (S (F + Fa)). intros [|f] Hf ctx wa Hwa; [lia|].
  destruct (same_skeleton_lookup _ _ _ _ Hwa Hs) as (sa & Hsa & E).
  pose proof (draw_shape measureText f this ctx wa sa Hsa) as D.
  assert (is_Some (measured measureText f (objs wa) this sa)) as [s' Hm].
  { unfold measured.
    rewrite <- (getAbsoluteX_skeleton f o (objs wa) this Hwa).
    rewrite <- (getAbsoluteY_skeleton f o (objs wa) this Hwa).
    pose proof (skeleton_is_Scene _ _ E) as Esc. unfold is_Scene in Esc.
    destruct (class sa) eqn:Hc; try (by eauto);
      (destruct (HFa f) as [[ax ->] [ay ->]];
         [lia | unfold is_Scene; by destruct (class s) | simpl; eauto]). }
  rewrite Hm in D. destruct D as (w1 & Ho1 & _ & ->).
  rewrite (skeleton_children _ _ E).
  eapply forEach_is_Some with (o := o).
  - intros c Hc wb Hwb. apply (HF c Hc); [lia | done].
  - intros c wb wc Hd. by apply (repaints_draw measureText f c _ wb wc Hd).
  - eapply same_skeleton_trans; [exact Hwa|]. rewrite Ho1.
    eapply same_skeleton_insert; [exact Hsa | by eapply measured_skeleton].
Qed.

(** X11.  [draw] returns exactly on finite, acyclic graphs: if a [draw]
    of a node returns then the tree of children below the node is finite
    and acyclic and every node in it has a position (its parent chain
    reaches a parentless node or a [Scene]); conversely, on such a graph
    [draw] returns for every large enough recursion budget.  In
    particular a node that stands in its own array is never drawn to
    the end. *)
Theorem X11_draw_returns (this : nat) (w : World) :
  (∀ fuel ctx w', draw measureText fuel this ctx w = Some w' →
     FiniteTree (objs w) this ∧ ∀ d, InSubtree (objs w) this d → Resolves (objs w) d) ∧
  (FiniteTree (objs w) this →
   (∀ d, InSubtree (objs w) this d → Resolves (objs w) d) →
   ∃ F, ∀ f ctx, (F ≤ f)%nat → is_Some (draw measureText f this ctx w)) ∧
  (∀ s, objs w !! this = Some s → this ∈ children s →
     ∀ fuel ctx, draw measureText fuel this ctx w = None).
Proof.
  split; [|split].
  - intros fuel ctx w' H. apply Drawable_iff. by eapply draw_Drawable.
  - intros Ht Hr.
    destruct (Drawable_draw (objs w) this) as [F HF]; [by apply Drawable_iff|].
    exists F. intros f ctx Hf. apply HF; [done | apply same_skeleton_refl].
  - intros s Hs Hin fuel ctx.
    destruct (draw measureText fuel this ctx w) as [w'|] eqn:H; [|done].
    apply draw_Drawable, Drawable_iff in H as [Ht _].
    exfalso. by eapply FiniteTree_irreflexive.
Qed.

End PaintingReturns.

(** ** Scenes built through the interface: acyclic children suffice *)

Lemma FiniteTree_no_proper_descendant o a :
  FiniteTree o a →
  ¬ ∃ s c, o !! a = Some s ∧ c ∈ children s ∧ InSubtree o c a.
Proof.
  induction 1 as [a s Hs Hkids IH]. intros (s0 & c & Hs0 & Hc & Hsub).
  assert (s0 = s) as -> by congruence.
  apply (IH c Hc).
  apply InSubtree_head in Hsub as [Heq|(s' & c' & Hs' & Hc' & Hsub')].
  - subst a. exists s, c. split; [done|]. split; [done|]. constructor.
  - exists s', c'. split; [done|]. split; [done|]. eapply subtree_child; eauto.
Qed.

(** With back-links in place, an ancestor has the node below it. *)
Lemma Ancestor_descendant o n a :
  backlinked o → Ancestor o n a →
  ∃ sa c, o !! a = Some sa ∧ c ∈ children sa ∧ InSubtree o c n.
Proof.
  intros Hb. induction 1 as [n s p Hs Hp | n s p a Hs Hp _ IH].
  - destruct (Hb n s p Hs Hp) as (sp & Hsp & Hin).
    exists sp, n. split; [done|]. split; [done|]. constructor.
  - destruct IH as (sa & c & Hsa & Hc & Hsub).
    destruct (Hb n s p Hs Hp) as (sp & Hsp & Hin).
    exists sa, c. split; [done|]. split; [done|]. eapply subtree_child; eauto.
Qed.

Lemma FiniteChain_in (o : gmap nat Shape) (A : gset nat) :
  backlinked o →
  (∀ n s, o !! n = Some s → FiniteTree o n) →
  ∀ n s, o !! n = Some s → (∀ a, Ancestor o n a → a ∈ A) → FiniteChain o n.
Proof.
  intros Hb Hacyc. induction (set_wf A) as [A _ IH]. intros n s Hs HA.
  destruct (parent s) as [p|] eqn:Hp; [|by eapply chain_root].
  destruct (Hb n s p Hs Hp) as (sp & Hsp & Hin).
  assert (p ∈ A) as HpA by (apply HA; by eapply ancestor_parent).
  eapply chain_link; [exact Hs | exact Hp |].
  apply (IH (A ∖ {[p]})) with (s := sp); [by apply subset_difference_elem_of | done |].
  intros a Ha. apply elem_of_difference. split.
  - apply HA. by eapply ancestor_further.
  - intros Hap. apply elem_of_singleton in Hap. subst a.
    apply (FiniteTree_no_proper_descendant o p (Hacyc p sp Hsp)).
    by apply Ancestor_descendant.
Qed.

Lemma FiniteChain_Resolves o this : FiniteChain o this → Resolves o this.
Proof.
  induction 1 as [this s Hs Hp | this s p Hs Hp _ IH].
  - destruct (is_Scene s) eqn:Hsc; [by eapply resolves_scene | by eapply resolves_root].
  - destruct (is_Scene s) eqn:Hsc; [by eapply resolves_scene | by eapply resolves_link].
Qed.

(** X14.  In a store where every back-link is matched by an array entry
    (which the constructors, [addChild] and [removeChild] maintain) and
    no node is its own descendant through the child arrays, every parent
    chain is finite; so on every node [getAbsoluteX], [getAbsoluteY],
    [handleEvent] and [draw] return for every large enough recursion
    budget. *)
Theorem X14_acyclic_children_suffice (measureText : string → list N → Z)
    (w : World) :
  backlinked (objs w) →
  (∀ n s, objs w !! n = Some s → FiniteTree (objs w) n) →
  ∀ this s, objs w !! this = Some s →
    FiniteChain (objs w) this ∧
    (∃ F ax ay, ∀ f, (F ≤ f)%nat →
       getAbsoluteX f (objs w) this = Some ax ∧
       getAbsoluteY f (objs w) this = Some ay) ∧
    (∀ event, ∃ F, ∀ f, (F ≤ f)%nat → is_Some (handleEvent f this event w)) ∧
    (∃ F, ∀ f ctx, (F ≤ f)%nat → is_Some (draw measureText f this ctx w)).
Proof.
  intros Hb Hacyc.
  assert (∀ n s, objs w !! n = Some s → FiniteChain (objs w) n) as Hchain.
  { intros n s Hs. apply (FiniteChain_in (objs w) (dom (objs w)) Hb Hacyc n s Hs).
    intros a Ha. destruct (Ancestor_descendant _ _ _ Hb Ha) as (sa & _ & Hsa & _).
    apply elem_of_dom. eauto. }
  assert (∀ this d, InSubtree (objs w) this d → is_Some (objs w !! this) →
            is_Some (objs w !! d)) as Hexists.
  { intros this d Hd Hthis. induction Hd as [|d s child Hsub IH Hs Hin]; [done|].
    destruct (Hacyc d s Hs) as [d0 s0 Hs0 Hkids].
    assert (s0 = s) as -> by congruence.
    destruct (Hkids child Hin) as [c sc Hsc _]. eauto. }
  intros this s Hs.
  assert (∀ d, InSubtree (objs w) this d → FiniteChain (objs w) d) as Hsub.
  { intros d Hd. destruct (Hexists this d Hd) as [sd Hsd]; [eauto|].
    by eapply Hchain. }
  split; [by eapply Hchain|]. split; [apply absolute_terminates; by eapply Hchain|].
  split.
  - intros event. apply handleEvent_terminates; [by eapply Hacyc | exact Hsub].
  - destruct (Drawable_draw measureText (objs w) this) as [F HF].
    { apply Drawable_iff. split; [by eapply Hacyc|].
      intros d Hd. apply FiniteChain_Resolves. by apply Hsub. }
    exists F. intros f ctx Hf. apply HF; [done | apply same_skeleton_refl].
Qed.

(** * The further properties on the example scenes *)

Lemma two_objects (o : gmap nat Shape) a b n s :
  o = <[1%nat := b]> (<[0%nat := a]> ∅) → o !! n = Some s →
  (n = 0%nat ∧ s = a) ∨ (n = 1%nat ∧ s = b).
Proof.
  intros -> Hn. destruct (decide (1%nat = n)) as [<-|H1].
  - rewrite lookup_insert_eq in Hn. right. split; congruence.
  - rewrite lookup_insert_ne in Hn by done.
    destruct (decide (0%nat = n)) as [<-|H0].
    + rewrite lookup_insert_eq in Hn. left. split; congruence.
    + rewrite lookup_insert_ne in Hn by done. by rewrite lookup_empty in Hn.
Qed.

(** The click at (50, 25) on the three siblings ends in the last one,
    which has no children. *)
Lemma X4_click_receiver_witness :
  ∃ r m sr,
    log (MkLogEntry 3 (ClickedRectangle 20 10)) (world_of three_siblings)
      = log (MkLogEntry r m) (world_of three_siblings) ∧
    InSubtree (objs (world_of three_siblings)) 0 r ∧
    objs (world_of three_siblings) !! r = Some sr ∧
    (r = 0%nat ∨
     ∃ f, containsPoint f (objs (world_of three_siblings)) r 50 25 = Some true) ∧
    (∀ c, c ∈ children sr →
       ∃ f, containsPoint f (objs (world_of three_siblings)) c 50 25 = Some false).
Proof.
  apply (X4_click_receiver 4 0 (MouseClickEvent 50 25) (world_of three_siblings)
    (log (MkLogEntry 3 (ClickedRectangle 20 10)) (world_of three_siblings))
    eq_refl).
  vm_compute. reflexivity.
Defined.

Lemma X5_dispatch_read_only_witness :
  objs (log (MkLogEntry 3 (ClickedRectangle 20 10)) (world_of three_siblings))
    = objs (world_of three_siblings) ∧
  ctxs (log (MkLogEntry 3 (ClickedRectangle 20 10)) (world_of three_siblings))
    = ctxs (world_of three_siblings) ∧
  (console (log (MkLogEntry 3 (ClickedRectangle 20 10)) (world_of three_siblings))
     = console (world_of three_siblings) ∨
   ∃ e, console (log (MkLogEntry 3 (ClickedRectangle 20 10)) (world_of three_siblings))
          = console (world_of three_siblings) ++ [e]).
Proof.
  apply (X5_dispatch_read_only 4 0 (MouseClickEvent 50 25) (world_of three_siblings)).
  vm_compute. reflexivity.
Defined.

(** Attaching the loose rectangle to the scene keeps the back-links
    matched. *)
Lemma X6_backlinks_preserved_witness :
  backlinked (objs (world_of one_rectangle)).
Proof.
  apply (proj1 (proj2 (proj2 X6_backlinks_preserved))
           0%nat 1%nat (world_of loose_rectangle) (world_of one_rectangle)).
  - vm_compute. reflexivity.
  - intros n s p Hn Hp.
    destruct (two_objects _ (MkShape (Scene 0) 0 0 800 600 [] None)
                (MkShape (Rectangle "black") 0 0 100 50 [] None) n s
                ltac:(vm_compute; reflexivity) Hn) as [[_ ->] | [_ ->]];
      discriminate Hp.
Defined.

(** Attaching the loose rectangle and detaching it again gives the world
    back. *)
Lemma X7_add_then_remove_witness :
  ∃ w1, addChild 0 1 (world_of loose_rectangle) = Some w1 ∧
        removeChild 0 1 w1 = Some (world_of loose_rectangle).
Proof.
  destruct (X7_add_then_remove 0 1 (world_of loose_rectangle)
    (MkShape (Scene 0) 0 0 800 600 [] None)
    (MkShape (Rectangle "black") 0 0 100 50 [] None)
    ltac:(vm_compute; reflexivity) ltac:(vm_compute; reflexivity))
    as (w1 & w2 & st2 & sc2 & Ha & Hr & _ & _ & _ & Habs & _).
  exists w1. split; [exact Ha|].
  destruct (Habs ltac:(apply not_elem_of_nil)) as [_ Hw].
  rewrite <- (Hw eq_refl). exact Hr.
Defined.

(** The text that stands under both palaces is taken out of the first:
    it stays in the second, without parent. *)
Lemma X8_remove_from_one_of_two_witness :
  ∃ w' sn',
    removeChild 0 2 (world_of text_in_both) = Some w' ∧
    objs w' !! 1%nat
      = Some (MkShape (PalaceContainer "black") 160 0 160 200 [2%nat] None) ∧
    objs w' !! 2%nat = Some sn' ∧ parent sn' = None ∧
    (is_Scene (MkShape (CustomText (units "ab") "20px Arial" "black") 20 0 0 0 []
                 (Some 1%nat)) = false → ∀ f,
       getAbsoluteX (S f) (objs w') 2 = Some 20 ∧
       getAbsoluteY (S f) (objs w') 2 = Some 0).
Proof.
  apply (X8_remove_from_one_of_two 0 1 2 (world_of text_in_both)
    (MkShape (PalaceContainer "black") 0 0 160 200 [2%nat] None)
    (MkShape (PalaceContainer "black") 160 0 160 200 [2%nat] None)
    (MkShape (CustomText (units "ab") "20px Arial" "black") 20 0 0 0 [] (Some 1%nat))).
  - vm_compute. reflexivity.
  - vm_compute. reflexivity.
  - vm_compute. reflexivity.
  - discriminate.
  - discriminate.
  - simpl. apply list_elem_of_singleton. reflexivity.
  - simpl. apply list_elem_of_singleton. reflexivity.
Defined.

Example text_in_both_before :
  getAbsoluteX 2 (objs (world_of text_in_both)) 2 = Some 180.
Proof. vm_compute. reflexivity. Qed.

(** One [scene.draw()] of [palace_scene]. *)
Lemma X9_draw_frame_witness :
  console palace_drawn = console (world_of palace_scene) ∧
  same_skeleton (objs (world_of palace_scene)) (objs palace_drawn) ∧
  (∀ j s, objs (world_of palace_scene) !! j = Some s →
     (∀ text font fillColor, class s ≠ CustomText text font fillColor) →
     objs palace_drawn !! j = Some s).
Proof.
  apply (X9_draw_frame ten_per_char 8 0 0 (world_of palace_scene) palace_drawn).
  vm_compute. reflexivity.
Defined.

Lemma X10_draw_parent_first_witness :
  ∃ ax ay rest,
    (is_Scene (MkShape (Scene 0) 0 0 800 600 [1%nat] None) = false →
       getAbsoluteX 7 (objs (world_of palace_scene)) 0 = Some ax ∧
       getAbsoluteY 7 (objs (world_of palace_scene)) 0 = Some ay) ∧
    calls (get_ctx 0 palace_drawn)
      = calls (get_ctx 0 (world_of palace_scene))
        ++ self_calls (MkShape (Scene 0) 0 0 800 600 [1%nat] None) ax ay ++ rest ∧
    (∀ c, ∃ new, calls (get_ctx c palace_drawn)
                 = calls (get_ctx c (world_of palace_scene)) ++ new).
Proof.
  apply (X10_draw_parent_first ten_per_char 7 0 0 (world_of palace_scene) palace_drawn
    (MkShape (Scene 0) 0 0 800 600 [1%nat] None)).
  - vm_compute. reflexivity.
  - vm_compute. reflexivity.
Defined.

Example palace_scene_calls :
  calls (get_ctx 0 palace_drawn)
  = [clearRect 0 0 800 600; strokeRect 60 60 160 200;
     fillText (units "a") 80 80; fillText (units "b") 80 100; strokeRect 60 200 40 60].
Proof. vm_compute. reflexivity. Qed.

Lemma X11_draw_returns_witness :
  FiniteTree (objs (world_of palace_scene)) 0 ∧
  ∀ d, InSubtree (objs (world_of palace_scene)) 0 d →
       Resolves (objs (world_of palace_scene)) d.
Proof.
  apply (proj1 (X11_draw_returns ten_per_char 0 (world_of palace_scene))
           8%nat 0%nat palace_drawn).
  vm_compute. reflexivity.
Defined.

Lemma X14_acyclic_children_suffice_witness :
  FiniteChain (objs (world_of one_rectangle)) 1.
Proof.
  refine (proj1 (X14_acyclic_children_suffice ten_per_char (world_of one_rectangle)
    _ _ 1%nat (MkShape (Rectangle "black") 0 0 100 50 [] (Some 0%nat))
    ltac:(vm_compute; reflexivity))).
  - intros n s p Hn Hp.
    destruct (two_objects _ (MkShape (Scene 0) 0 0 800 600 [1%nat] None)
                (MkShape (Rectangle "black") 0 0 100 50 [] (Some 0%nat)) n s
                ltac:(vm_compute; reflexivity) Hn) as [[_ ->] | [-> ->]];
      [discriminate Hp|].
    inversion Hp; subst p. eexists. split; [vm_compute; reflexivity|].
    simpl. apply list_elem_of_singleton. reflexivity.
  - assert (FiniteTree (objs (world_of one_rectangle)) 1) as H1.
    { eapply tree_node; [vm_compute; reflexivity|].
      simpl. intros c Hc. by apply elem_of_nil in Hc. }
    intros n s Hn.
    destruct (two_objects _ (MkShape (Scene 0) 0 0 800 600 [1%nat] None)
                (MkShape (Rectangle "black") 0 0 100 50 [] (Some 0%nat)) n s
                ltac:(vm_compute; reflexivity) Hn) as [[-> _] | [-> _]];
      [|exact H1].
    eapply tree_node; [vm_compute; reflexivity|].
    simpl. intros c Hc. apply list_elem_of_singleton in Hc. subst c. exact H1.
Defined.
